(** * Async web monitoring: the poll, buffer and batch-flush pipeline

    A shallow embedding of [async_poller.py] (with the SQL templates of
    [dbhelper.py]) and the properties of its fetcher, poller and batch
    flusher.

    Conventions of the embedding:
    - a Python [dict] with string keys is a [gmap string pyval];
    - a [deque] used as a FIFO is a [list], [append] adds at the right end
      and [popleft] removes at the left end;
    - a [datetime] is a count of microseconds and a [float] is a binary64
      number, with Python's rounding where an [int] becomes a [float] and
      in [total_seconds()];
    - what the network, the clock and the database do is an input of each
      operation (an environment record), the code's reaction to it is a
      function;
    - an [exn] stands for an instance of Python's [Exception], which is
      what a failed connect, a timeout, a protocol error and a failed
      decoding raise. *)

From Stdlib Require Import ZArith NArith String Ascii.
From Stdlib Require Import PrimFloat SpecFloat FloatOps.
From Stdlib.Strings Require Import Byte.
From stdpp Require Import gmap strings list fin_maps pretty.

Local Open Scope string_scope.
Local Open Scope list_scope.
Set Warnings "-register-all,-inexact-float".

(** ** Python values *)

Module Py.

(** An exception instance: the qualified name of its class and the text
    [str(error)] gives. *)
Record exn : Type := Exn { exn_type : string; exn_msg : string }.

(** [repr] of a class object, what [{type(error)}] renders inside an
    f-string. *)
Definition type_repr (e : exn) : string :=
  "<class '" +:+ exn_type e +:+ "'>".

Inductive pyval : Type :=
| VNone
| VBool (b : bool)
| VInt (z : Z)
| VFloat (x : float)
| VStr (s : string)
| VDatetime (t : Z)
| VTuple (items : list pyval).

(** A computation that either raises or returns. *)
Definition result (A : Type) : Type := exn + A.

Definition ret {A} (a : A) : result A := inr a.
Definition raise {A} (e : exn) : result A := inl e.
Definition bind {A B} (c : result A) (k : A -> result B) : result B :=
  match c with
  | inl e => inl e
  | inr a => k a
  end.

(** [float(z)] as Python converts an [int] that meets a [float] in
    arithmetic: the nearest binary64 number, ties to even, and
    [OverflowError] beyond the range. *)
Definition overflow_error : exn :=
  Exn "OverflowError" "int too large to convert to float".

Definition float_of_int (z : Z) : result float :=
  let x := SF2Prim (binary_normalize prec emax z 0 false) in
  if is_infinity x then raise overflow_error else ret x.

(** [timedelta.total_seconds()] for a difference of [microseconds]: the
    binary64 number nearest to the quotient by a million.  The quotient is
    taken to 80 binary places, with one more bit to tell an inexact
    quotient from an exact one, and rounded once. *)
Definition total_seconds (microseconds : Z) : float :=
  let scaled := Z.shiftl (Z.abs microseconds) 80 in
  let quotient := (scaled / 1000000)%Z in
  let inexact := negb (scaled mod 1000000 =? 0)%Z in
  let mantissa := (2 * quotient + (if inexact then 1 else 0))%Z in
  SF2Prim (binary_normalize prec emax
             (if (microseconds <? 0)%Z then (- mantissa)%Z else mantissa)
             (-81) false).

End Py.

Import Py.

Notation "'do' x <- c ; k" := (Py.bind c (fun x => k))
  (at level 10, x name, c at level 100, k at level 200).

(** ** [bytes.decode('utf')]: strict UTF-8 *)

Module Utf8.

Local Open Scope N_scope.

Definition is_cont (b : byte) : bool :=
  (0x80 <=? Byte.to_N b) && (Byte.to_N b <=? 0xBF).

Definition low6 (b : byte) : N := N.land (Byte.to_N b) 0x3F.

Definition is_surrogate (cp : N) : bool := (0xD800 <=? cp) && (cp <=? 0xDFFF).

(** The code points of a byte string, [None] where Python raises
    [UnicodeDecodeError]: a stray continuation byte, a truncated or
    overlong sequence, a surrogate, or a value above U+10FFFF. *)
Fixpoint decode_points (data : list byte) : option (list N) :=
  match data with
  | [] => Some []
  | b0 :: rest =>
    let n0 := Byte.to_N b0 in
    if n0 <? 0x80 then cons n0 <$> decode_points rest
    else if n0 <? 0xC0 then None
    else if n0 <? 0xE0 then
      match rest with
      | b1 :: rest1 =>
        let cp := N.lor (N.shiftl (N.land n0 0x1F) 6) (low6 b1) in
        if is_cont b1 && (0x80 <=? cp)
        then cons cp <$> decode_points rest1
        else None
      | _ => None
      end
    else if n0 <? 0xF0 then
      match rest with
      | b1 :: b2 :: rest2 =>
        let cp := N.lor (N.shiftl (N.land n0 0x0F) 12)
                    (N.lor (N.shiftl (low6 b1) 6) (low6 b2)) in
        if is_cont b1 && is_cont b2 && (0x800 <=? cp) && negb (is_surrogate cp)
        then cons cp <$> decode_points rest2
        else None
      | _ => None
      end
    else if n0 <? 0xF8 then
      match rest with
      | b1 :: b2 :: b3 :: rest3 =>
        let cp := N.lor (N.shiftl (N.land n0 0x07) 18)
                    (N.lor (N.shiftl (low6 b1) 12)
                       (N.lor (N.shiftl (low6 b2) 6) (low6 b3))) in
        if is_cont b1 && is_cont b2 && is_cont b3
           && (0x10000 <=? cp) && (cp <=? 0x10FFFF)
        then cons cp <$> decode_points rest3
        else None
      | _ => None
      end
    else None
  end.

(** Where decoding stops: the span of bytes [start, stop) the error is
    about and the reason given for it. *)
Record fault : Type := {
  fault_start : nat;
  fault_stop : nat;
  fault_reason : string
}.

Definition invalid_start (pos : nat) : fault :=
  {| fault_start := pos; fault_stop := pos + 1;
     fault_reason := "invalid start byte" |}.

Definition invalid_continuation (pos good : nat) : fault :=
  {| fault_start := pos; fault_stop := pos + good;
     fault_reason := "invalid continuation byte" |}.

Definition unexpected_end (pos present : nat) : fault :=
  {| fault_start := pos; fault_stop := pos + present;
     fault_reason := "unexpected end of data" |}.

(** A second byte that cannot follow the lead byte [n0] of a sequence of
    three, or of four. *)
Definition bad_second_of_three (n0 : N) (b1 : byte) : bool :=
  negb (is_cont b1)
  || (if Byte.to_N b1 <? 0xA0 then n0 =? 0xE0 else n0 =? 0xED).

Definition bad_second_of_four (n0 : N) (b1 : byte) : bool :=
  negb (is_cont b1)
  || (if Byte.to_N b1 <? 0x90 then n0 =? 0xF0 else n0 =? 0xF4).

(** The first place where [decode_points] gives up, as the decoder reports
    it, [pos] being the position of the head of [data].  A sequence is
    passed over under the conditions of [decode_points]; where they fail,
    a lead byte that can start no sequence is an invalid start byte, a
    sequence cut short by the end of the data with nothing wrong in what
    is there is an unexpected end, and otherwise the byte that cannot
    continue the sequence ends the span. *)
Fixpoint first_fault (data : list byte) (pos : nat) : option fault :=
  match data with
  | [] => None
  | b0 :: rest =>
    let n0 := Byte.to_N b0 in
    if n0 <? 0x80 then first_fault rest (pos + 1)
    else if n0 <? 0xC0 then Some (invalid_start pos)
    else if n0 <? 0xE0 then
      match rest with
      | b1 :: rest1 =>
        let cp := N.lor (N.shiftl (N.land n0 0x1F) 6) (low6 b1) in
        if is_cont b1 && (0x80 <=? cp)
        then first_fault rest1 (pos + 2)
        else if n0 <? 0xC2 then Some (invalid_start pos)
             else Some (invalid_continuation pos 1)
      | [] =>
        if n0 <? 0xC2 then Some (invalid_start pos)
        else Some (unexpected_end pos 1)
      end
    else if n0 <? 0xF0 then
      match rest with
      | b1 :: b2 :: rest2 =>
        let cp := N.lor (N.shiftl (N.land n0 0x0F) 12)
                    (N.lor (N.shiftl (low6 b1) 6) (low6 b2)) in
        if is_cont b1 && is_cont b2 && (0x800 <=? cp) && negb (is_surrogate cp)
        then first_fault rest2 (pos + 3)
        else if bad_second_of_three n0 b1
             then Some (invalid_continuation pos 1)
             else Some (invalid_continuation pos 2)
      | [b1] =>
        if bad_second_of_three n0 b1
        then Some (invalid_continuation pos 1)
        else Some (unexpected_end pos 2)
      | [] => Some (unexpected_end pos 1)
      end
    else if n0 <? 0xF8 then
      if 0xF5 <=? n0 then Some (invalid_start pos)
      else
      match rest with
      | b1 :: b2 :: b3 :: rest3 =>
        let cp := N.lor (N.shiftl (N.land n0 0x07) 18)
                    (N.lor (N.shiftl (low6 b1) 12)
                       (N.lor (N.shiftl (low6 b2) 6) (low6 b3))) in
        if is_cont b1 && is_cont b2 && is_cont b3
           && (0x10000 <=? cp) && (cp <=? 0x10FFFF)
        then first_fault rest3 (pos + 4)
        else if bad_second_of_four n0 b1
             then Some (invalid_continuation pos 1)
             else if negb (is_cont b2)
                  then Some (invalid_continuation pos 2)
                  else Some (invalid_continuation pos 3)
      | [b1; b2] =>
        if bad_second_of_four n0 b1
        then Some (invalid_continuation pos 1)
        else if negb (is_cont b2)
             then Some (invalid_continuation pos 2)
             else Some (unexpected_end pos 3)
      | [b1] =>
        if bad_second_of_four n0 b1
        then Some (invalid_continuation pos 1)
        else Some (unexpected_end pos 2)
      | [] => Some (unexpected_end pos 1)
      end
    else Some (invalid_start pos)
  end.

Definition hex_digit (n : N) : ascii :=
  nth (N.to_nat n) (list_ascii_of_string "0123456789abcdef") "0"%char.

(** [%02x] of a byte. *)
Definition hex2 (b : byte) : string :=
  String (hex_digit (Byte.to_N b / 16))
    (String (hex_digit (Byte.to_N b mod 16)) EmptyString).

(** [str(error)] of a [UnicodeDecodeError]: one byte is named with its
    value and position, a longer span with its first and last position. *)
Definition fault_message (data : list byte) (f : fault) : string :=
  if bool_decide (fault_stop f = fault_start f + 1)%nat
  then "'utf-8' codec can't decode byte 0x"
       +:+ hex2 (nth (fault_start f) data x00)
       +:+ " in position " +:+ pretty (fault_start f)
       +:+ ": " +:+ fault_reason f
  else "'utf-8' codec can't decode bytes in position "
       +:+ pretty (fault_start f) +:+ "-" +:+ pretty (fault_stop f - 1)%nat
       +:+ ": " +:+ fault_reason f.

(** The exception [data.decode('utf')] raises on [data]. *)
Definition unicode_decode_error (data : list byte) : exn :=
  Exn "UnicodeDecodeError"
      (from_option (fault_message data) "" (first_fault data 0)).

(** [data.decode('utf')] *)
Definition decode (data : list byte) : result (list N) :=
  match decode_points data with
  | Some text => ret text
  | None => raise (unicode_decode_error data)
  end.

Definition ascii_bytes (s : string) : list byte := list_byte_of_string s.

Definition points_of_string (s : string) : list N :=
  map Byte.to_N (list_byte_of_string s).

End Utf8.

(** ** The fragment of [re] the monitor relies on *)

Module Re.

Local Open Scope N_scope.

(** Abstract syntax of a pattern: literals, [.], bracket sets and the
    escapes that abbreviate them, sequence, [|] and [*].  [r+] is
    [Cat r (Star r)] and [r?] is [Alt Eps r]. *)
Inductive regex : Type :=
| Empty
| Eps
| Chr (c : N)
| Dot
| Set_ (negated : bool) (ranges : list (N * N))
| Cat (r1 r2 : regex)
| Alt (r1 r2 : regex)
| Star (r : regex).

Definition Plus (r : regex) : regex := Cat r (Star r).

Fixpoint Lit (cs : list N) : regex :=
  match cs with
  | [] => Eps
  | c :: cs' => Cat (Chr c) (Lit cs')
  end.

(** [\s] on [str] patterns: the characters [str.isspace] takes. *)
Definition Space : regex :=
  Set_ false [(9, 13); (28, 32); (0x85, 0x85); (0xA0, 0xA0);
              (0x1680, 0x1680); (0x2000, 0x200A); (0x2028, 0x2029);
              (0x202F, 0x202F); (0x205F, 0x205F); (0x3000, 0x3000)].

(** A compiled pattern: the syntax tree and the flags it was compiled
    with. *)
Record Pattern : Type := { pat_re : regex; pat_dotall : bool }.

(** [re.compile(source, flags)] with [flags] either [0] or [re.DOTALL]. *)
Definition compile (source : regex) (dotall : bool) : Pattern :=
  {| pat_re := source; pat_dotall := dotall |}.

(** What [.] matches: everything under [re.DOTALL], everything but a line
    feed otherwise. *)
Definition dot_matches (dotall : bool) (c : N) : bool :=
  dotall || negb (c =? 10).

Definition in_ranges (ranges : list (N * N)) (c : N) : bool :=
  existsb (fun lh => (fst lh <=? c) && (c <=? snd lh)) ranges.

Definition set_matches (negated : bool) (ranges : list (N * N)) (c : N) : bool :=
  xorb negated (in_ranges ranges c).

(** The language of a pattern. *)
Inductive matches (dotall : bool) : regex -> list N -> Prop :=
| MEps : matches dotall Eps []
| MChr c : matches dotall (Chr c) [c]
| MDot c : dot_matches dotall c = true -> matches dotall Dot [c]
| MSet negated ranges c :
    set_matches negated ranges c = true ->
    matches dotall (Set_ negated ranges) [c]
| MCat r1 r2 s1 s2 :
    matches dotall r1 s1 -> matches dotall r2 s2 ->
    matches dotall (Cat r1 r2) (s1 ++ s2)
| MAltL r1 r2 s : matches dotall r1 s -> matches dotall (Alt r1 r2) s
| MAltR r1 r2 s : matches dotall r2 s -> matches dotall (Alt r1 r2) s
| MStarNil r : matches dotall (Star r) []
| MStarApp r s1 s2 :
    matches dotall r s1 -> matches dotall (Star r) s2 ->
    matches dotall (Star r) (s1 ++ s2).

Fixpoint nullable (r : regex) : bool :=
  match r with
  | Empty | Chr _ | Dot | Set_ _ _ => false
  | Eps | Star _ => true
  | Cat r1 r2 => nullable r1 && nullable r2
  | Alt r1 r2 => nullable r1 || nullable r2
  end.

Definition of_bool (b : bool) : regex := if b then Eps else Empty.

(** What is left of a pattern after reading one character. *)
Fixpoint deriv (dotall : bool) (c : N) (r : regex) : regex :=
  match r with
  | Empty | Eps => Empty
  | Chr a => of_bool (a =? c)
  | Dot => of_bool (dot_matches dotall c)
  | Set_ negated ranges => of_bool (set_matches negated ranges c)
  | Cat r1 r2 =>
    if nullable r1
    then Alt (Cat (deriv dotall c r1) r2) (deriv dotall c r2)
    else Cat (deriv dotall c r1) r2
  | Alt r1 r2 => Alt (deriv dotall c r1) (deriv dotall c r2)
  | Star r1 => Cat (deriv dotall c r1) (Star r1)
  end.

(** Does some prefix of the text match? *)
Fixpoint match_prefix (dotall : bool) (r : regex) (text : list N) : bool :=
  nullable r ||
  match text with
  | [] => false
  | c :: text' => match_prefix dotall (deriv dotall c r) text'
  end.

(** The start of the leftmost match at or after position [pos]. *)
Fixpoint search_from (dotall : bool) (r : regex) (text : list N) (pos : nat)
  : option nat :=
  if match_prefix dotall r text then Some pos
  else match text with
       | [] => None
       | _ :: text' => search_from dotall r text' (S pos)
       end.

(** [pattern.search(text)]: the match object, here the position where the
    leftmost match starts, or [None]. *)
Definition search (p : Pattern) (text : list N) : option nat :=
  search_from (pat_dotall p) (pat_re p) text 0.

(** A pattern occurs in a text when some contiguous part of the text is in
    its language. *)
Definition occurs_in (p : Pattern) (text : list N) : Prop :=
  exists pre mid post,
    text = pre ++ mid ++ post /\ matches (pat_dotall p) (pat_re p) mid.

End Re.

(** ** [aiohttp]: sessions, timeouts and the network *)

Module Aiohttp.

Record ClientTimeout : Type := {
  total : option Z;
  sock_connect : option Z;
  sock_read : option Z
}.

Record ClientSession : Type := { session_timeout : ClientTimeout }.

Record Response : Type := { status : Z; content : list byte }.

(** The timeout one request runs under.  An argument given to
    [session.get] replaces the timeout of the session, and a bare number
    of seconds stands for [ClientTimeout(total=number)]. *)
Definition request_timeout (session : ClientSession) (timeout : option Z)
  : ClientTimeout :=
  match timeout with
  | None => session_timeout session
  | Some seconds =>
    {| total := Some seconds; sock_connect := None; sock_read := None |}
  end.

(** What the remote side does with a GET: the answer to
    [async with session.get(url, allow_redirects=..., timeout=...)]
    followed by [await response.read()], given the URL, the redirect flag
    and the timeout in force. *)
Definition network : Type := string -> bool -> ClientTimeout -> result Response.

End Aiohttp.

(** ** [dbhelper.py]: the SQL templates, and [cursor.execute] *)

Module DBHelper.

Definition RESULT_SQL : string :=
  "INSERT INTO {table} " +:+
  "(url, status_code, regex_found, timestamp, duration) " +:+
  "VALUES " +:+
  "(%(url)s, %(status_code)s, %(regex_found)s, " +:+
  "%(timestamp)s, %(duration)s) ".

Definition ERROR_SQL : string :=
  "INSERT INTO {table} " +:+
  "(url, error, timestamp) " +:+
  "VALUES (%(url)s, %(error)s, %(timestamp)s) ".

(** [template.format(table=table)] for a template whose only field is
    [{table}]. *)
Fixpoint format_table (table : string) (skip : nat) (template : string) : string :=
  match template with
  | EmptyString => EmptyString
  | String c rest =>
    match skip with
    | S skip' => format_table table skip' rest
    | O =>
      if String.prefix "{table}" template
      then table +:+ format_table table 6 rest
      else String c (format_table table 0 rest)
    end
  end.

Record t : Type := { result_table : string; error_table : string }.

Definition insert_result_sql (db : t) : string :=
  format_table (result_table db) 0 RESULT_SQL.

Definition insert_error_sql (db : t) : string :=
  format_table (error_table db) 0 ERROR_SQL.

(** The scanner of named parameters [%(name)s] in a statement. *)
Inductive scan : Type := InText | AfterPercent | InName (name : string).

Fixpoint parameters_from (st : scan) (sql : string) : list string :=
  match sql with
  | EmptyString => []
  | String c rest =>
    match st with
    | InText =>
      if Ascii.eqb c "%" then parameters_from AfterPercent rest
      else parameters_from InText rest
    | AfterPercent =>
      if Ascii.eqb c "(" then parameters_from (InName "") rest
      else parameters_from InText rest
    | InName name =>
      if Ascii.eqb c ")" then name :: parameters_from InText rest
      else parameters_from (InName (name +:+ String c "")) rest
    end
  end.

Definition parameters (sql : string) : list string := parameters_from InText sql.

(** A name with no per cent sign in it. *)
Fixpoint no_percent (name : string) : bool :=
  match name with
  | EmptyString => true
  | String c rest => negb (Ascii.eqb c "%") && no_percent rest
  end.

(** The first named parameter of the statement the mapping has no entry
    for. *)
Definition unbound (sql : string) (values : gmap string pyval) : option string :=
  List.find (fun name => bool_decide (values !! name = None)) (parameters sql).

(** The database as the list of the statements executed on it, each with
    the values bound to it. *)
Definition database : Type := list (string * gmap string pyval).

(** The server side of a connection: whether a connection can be had from
    the pool, and whether the server accepts a statement. *)
Record server : Type := {
  acquire : result unit;
  accept : string -> gmap string pyval -> result unit
}.

Definition key_error (name : string) : exn := Exn "KeyError" ("'" +:+ name +:+ "'").

(** [cur.execute(sql, values)] with a mapping: binding a parameter the
    mapping lacks raises [KeyError] before anything is sent. *)
Definition execute (srv : server) (sql : string) (values : gmap string pyval)
    (db : database) : database * result unit :=
  match unbound sql values with
  | Some name => (db, raise (key_error name))
  | None =>
    match accept srv sql values with
    | inl e => (db, raise e)
    | inr _ => (db ++ [(sql, values)], ret tt)
    end
  end.

(** The [for] loop of [insert_many]: one [cursor.execute] per item, left at
    the first one that raises. *)
Fixpoint execute_values (srv : server) (sql : string)
    (values_deck : list (gmap string pyval)) (db : database)
  : database * result unit :=
  match values_deck with
  | [] => (db, ret tt)
  | values :: rest =>
    match execute srv sql values db with
    | (db, inl error) => (db, raise error)
    | (db, inr _) => execute_values srv sql rest db
    end
  end.

(** [insert_many]: the statements run inside
    [with psycopg2.connect(...) as con], which commits when the block is
    left normally and rolls back when it is left by an exception. *)
Definition insert_many (srv : server) (sql : string)
    (values_deck : list (gmap string pyval)) (db : database)
  : database * result unit :=
  match acquire srv with
  | inl error => (db, raise error)
  | inr _ =>
    match execute_values srv sql values_deck db with
    | (db', inr _) => (db', ret tt)
    | (_, inl error) => (db, raise error)
    end
  end.

(** The rows a batch becomes under a statement. *)
Definition rows (sql : string) (values_deck : list (gmap string pyval))
  : database :=
  map (fun values => (sql, values)) values_deck.

(** A server that has a connection to give and takes every statement. *)
Definition accepting (srv : server) : Prop :=
  acquire srv = ret tt /\ forall sql values, accept srv sql values = ret tt.

End DBHelper.

(** ** [async_poller.py] *)

Module AsyncPoller.

Import Aiohttp.

(** The two deques [poll] creates and every task shares. *)
Record queues : Type := {
  result_queue : list (gmap string pyval);
  error_queue : list (gmap string pyval)
}.

Definition append_result (q : queues) (item : gmap string pyval) : queues :=
  {| result_queue := result_queue q ++ [item]; error_queue := error_queue q |}.

Definition append_error (q : queues) (item : gmap string pyval) : queues :=
  {| result_queue := result_queue q; error_queue := error_queue q ++ [item] |}.

(** *** [parse_web_page] *)

Definition parse_web_page (pattern : option Re.Pattern) (data : list byte)
  : result pyval :=
  match pattern with
  | None => ret VNone
  | Some p =>
    do text <- Utf8.decode data;
    match Re.search p text with
    | None => ret (VBool false)
    | Some _ => ret (VBool true)
    end
  end.

(** *** [fetch_page_data] *)

(** What one fetch meets: the network, and the readings of
    [datetime.now()] at its start (line 140), after the body is read
    (line 149) and inside the handler (line 159). *)
Record fetch_env : Type := {
  net : network;
  now_start : Z;
  now_read : Z;
  now_handler : Z
}.

(** The body of the [try]: the dictionary and the queues as it leaves
    them, and either the exception it raised or the value it returns. *)
Definition fetch_try (session : ClientSession) (url : string)
    (regex : option Re.Pattern) (timeout : Z) (env : fetch_env)
    (polling_results : gmap string pyval) (q : queues)
  : gmap string pyval * queues * result float :=
  match net env url true (request_timeout session (Some timeout)) with
  | inl error => (polling_results, q, raise error)
  | inr response =>
    let duration := total_seconds (now_read env - now_start env) in
    let polling_results := <["duration" := VFloat duration]> polling_results in
    let polling_results :=
      <["status_code" := VInt (status response)]> polling_results in
    match parse_web_page regex (content response) with
    | inl error => (polling_results, q, raise error)
    | inr found =>
      let polling_results := <["regex_found" := found]> polling_results in
      (polling_results, append_result q polling_results, ret duration)
    end
  end.

(** The text of [f'{type(error)}--{error}']. *)
Definition error_text (error : exn) : string :=
  type_repr error +:+ "--" +:+ exn_msg error.

(** A value that reads as [text]: the string itself, or a tuple holding
    just that string. *)
Definition carries (v : pyval) (text : string) : Prop :=
  v = VStr text \/ v = VTuple [VStr text].

(** One fetch: the queues afterwards and the duration returned.  The
    right-hand side of the assignment to ['error'] ends in a comma, so the
    value stored is a tuple of one string. *)
Definition fetch_page_data (session : ClientSession) (url : string)
    (regex : option Re.Pattern) (timeout : Z) (env : fetch_env) (q : queues)
  : queues * float :=
  let start_timestamp := now_start env in
  let polling_results : gmap string pyval :=
    <["timestamp" := VDatetime start_timestamp]> {["url" := VStr url]} in
  match fetch_try session url regex timeout env polling_results q with
  | (_, q, inr duration) => (q, duration)
  | (polling_results, q, inl error) =>
    let polling_results :=
      <["error" := VTuple [VStr (error_text error)]]> polling_results in
    (append_error q polling_results,
     total_seconds (now_handler env - start_timestamp))
  end.

(** The dictionary of a fetch as it stands before the request, after the
    body is read, and after the handler has put the error in. *)
Definition fresh_record (url : string) (env : fetch_env) : gmap string pyval :=
  <["timestamp" := VDatetime (now_start env)]> {["url" := VStr url]}.

Definition seen_record (url : string) (env : fetch_env) (response : Response)
  : gmap string pyval :=
  <["status_code" := VInt (status response)]>
    (<["duration" := VFloat (total_seconds (now_read env - now_start env))]>
       (fresh_record url env)).

Definition failed_record (error : exn) (d : gmap string pyval)
  : gmap string pyval :=
  <["error" := VTuple [VStr (error_text error)]]> d.

(** How many records wait on the two queues. *)
Definition queued (q : queues) : nat :=
  length (result_queue q) + length (error_queue q).

(** *** [website_poll] *)

(** Python's [max(a, b)]: the second argument only when it is strictly
    greater. *)
Definition py_max (a b : float) : float := if (a <? b)%float then b else a.

(** The arguments one polling task runs with. *)
Record poll_task : Type := {
  task_interval : Z;
  task_session : ClientSession;
  task_url : string;
  task_regex : option Re.Pattern;
  task_timeout : Z
}.

(** The call [website_poll(interval=, session=, url=, regex=, timeout=)],
    a keyword the caller leaves out taking the default of the signature. *)
Definition website_poll_call (interval : Z) (session : ClientSession)
    (url : string) (regex : option (option Re.Pattern)) (timeout : option Z)
  : poll_task :=
  {| task_interval := interval;
     task_session := session;
     task_url := url;
     task_regex := default None regex;
     task_timeout := default 4%Z timeout |}.

(** [max(0.1, interval - duration)], the [int] made a [float] for the
    subtraction. *)
Definition next_sleep (interval : Z) (duration : float) : result float :=
  do i <- float_of_int interval;
  ret (py_max 0.1 (i - duration))%float.

(** One turn of the [while True] loop: the fetch, then the argument of
    [asyncio.sleep], or the exception its computation raises. *)
Definition website_poll_cycle (task : poll_task) (env : fetch_env) (q : queues)
  : queues * result float :=
  let '(q, duration) :=
    fetch_page_data (task_session task) (task_url task) (task_regex task)
      (task_timeout task) env q in
  (q, next_sleep (task_interval task) duration).

(** The loop run for as many turns as there are environments, with the
    sleeps it asked for, in order, and the exception that ended it, if
    one did. *)
Fixpoint website_poll (task : poll_task) (envs : list fetch_env) (q : queues)
  : queues * list float * option exn :=
  match envs with
  | [] => (q, [], None)
  | env :: envs' =>
    match website_poll_cycle task env q with
    | (q, inl error) => (q, [], Some error)
    | (q, inr sleep) =>
      let '(q, sleeps, stopped) := website_poll task envs' q in
      (q, sleep :: sleeps, stopped)
    end
  end.

(** *** [build_tasks] *)

(** An entry of the URL list: the tuple [(url, interval, *rest)]; a
    pattern, when there is one, is the head of [rest]. *)
Record entry : Type := {
  entry_url : string;
  entry_interval : Z;
  entry_rest : list Re.regex
}.

Definition entry_len (e : entry) : nat := 2 + length (entry_rest e).

Definition build_task (session : ClientSession) (e : entry) : poll_task :=
  let regex :=
    if bool_decide (2 < entry_len e)%nat
    then match entry_rest e with
         | source :: _ => Some (Re.compile source true)
         | [] => None
         end
    else None in
  website_poll_call (entry_interval e) session (entry_url e) (Some regex) None.

Definition build_tasks (urldb : list entry) (session : ClientSession)
  : list poll_task :=
  map (build_task session) urldb.

Definition no_items : queues := {| result_queue := []; error_queue := [] |}.

(** A run of fetch attempts across targets, in the order in which they
    reach their [append]. *)
Fixpoint fetch_all (attempts : list (poll_task * fetch_env)) (q : queues)
  : queues :=
  match attempts with
  | [] => q
  | (task, env) :: rest => fetch_all rest (website_poll_cycle task env q).1
  end.

(** *** [write_to_db] *)

Import DBHelper.

(** The [for] loop over the batch: one [execute] per item, left at the
    first one that raises. *)
Fixpoint execute_each (srv : server) (sql : string)
    (values_deck : list (gmap string pyval)) (db : database)
  : database * result unit :=
  match values_deck with
  | [] => (db, ret tt)
  | values :: rest =>
    match execute srv sql values db with
    | (db, inl error) => (db, raise error)
    | (db, inr _) => execute_each srv sql rest db
    end
  end.

Definition write_to_db (srv : server) (values_deck : list (gmap string pyval))
    (sql : string) (db : database) : database * result unit :=
  match acquire srv with
  | inl error => (db, raise error)
  | inr _ => execute_each srv sql values_deck db
  end.

(** *** [bulk_dump] *)

Definition index_error : exn := Exn "IndexError" "pop from an empty deque".

(** [queue.popleft()] *)
Definition popleft {A} (queue : list A) : result (A * list A) :=
  match queue with
  | [] => raise index_error
  | item :: rest => ret (item, rest)
  end.

(** [while queue: dump_list.append(queue.popleft())], for at most [turns]
    turns of the loop: the queue and the list afterwards. *)
Fixpoint drain {A} (turns : nat) (queue dump_list : list A)
  : result (list A * list A) :=
  match turns with
  | O => ret (queue, dump_list)
  | S turns' =>
    if bool_decide (queue = [])
    then ret (queue, dump_list)
    else do popped <- popleft queue;
         drain turns' popped.2 (dump_list ++ [popped.1])
  end.

(** Two drains in a row: the two lists taken and the queue left. *)
Definition drain_twice {A} (queue : list A)
  : result (list A * list A * list A) :=
  do first <- drain (length queue) queue [];
  do second <- drain (length first.1) first.1 [];
  ret (first.2, second.2, second.1).

(** Where a flusher stands: in [asyncio.sleep], in [write_to_db] with the
    batch it took, or left by an exception. *)
Inductive dumper : Type :=
| Sleeping
| Writing (dump_list : list (gmap string pyval))
| Raised (error : exn).

(** From the end of the sleep to the next [await]: nothing for an empty
    queue, otherwise the queue emptied into [dump_list].  No other task
    runs in between. *)
Definition bulk_dump_wake (queue : list (gmap string pyval))
  : list (gmap string pyval) * dumper :=
  let dump_list := [] in
  if bool_decide (queue = []) then (queue, Sleeping)
  else match drain (length queue) queue dump_list with
       | inl error => (queue, Raised error)
       | inr (queue, dump_list) => (queue, Writing dump_list)
       end.

(** [await write_to_db(pool, dump_list, sql)] and back to the sleep, or
    out of the loop with the exception. *)
Definition bulk_dump_write (srv : server) (sql : string)
    (dump_list : list (gmap string pyval)) (db : database)
  : database * dumper :=
  match write_to_db srv dump_list sql db with
  | (db, inl error) => (db, Raised error)
  | (db, inr _) => (db, Sleeping)
  end.

(** One turn of the loop of [bulk_dump] with [arrivals] appended by the
    polling tasks while the write is awaited. *)
Definition bulk_dump_cycle (srv : server) (sql : string)
    (queue arrivals : list (gmap string pyval)) (db : database)
  : list (gmap string pyval) * database * dumper :=
  match bulk_dump_wake queue with
  | (queue, Writing dump_list) =>
    let '(db, d) := bulk_dump_write srv sql dump_list db in
    (queue ++ arrivals, db, d)
  | (queue, d) => (queue, db, d)
  end.

(** *** [poll] *)

Record dump_task : Type := { dump_sql : string; dump_interval : Z }.

(** What [poll] sets up and hands to [asyncio.gather]. *)
Record pipeline : Type := {
  pl_session : ClientSession;
  pl_polling_tasks : list poll_task;
  pl_result_dumper : dump_task;
  pl_error_dumper : dump_task
}.

Definition poll (db : DBHelper.t) (urls : list entry)
    (web_timeout dump_interval : Z) : pipeline :=
  let timeout := {| total := None;
                    sock_connect := Some web_timeout;
                    sock_read := Some web_timeout |} in
  let session := {| session_timeout := timeout |} in
  {| pl_session := session;
     pl_polling_tasks := build_tasks urls session;
     pl_result_dumper := {| dump_sql := insert_result_sql db;
                            dump_interval := dump_interval |};
     pl_error_dumper := {| dump_sql := insert_error_sql db;
                           dump_interval := dump_interval |} |}.

(** The timeout the GET of a polling task runs under. *)
Definition get_timeout (task : poll_task) : ClientTimeout :=
  request_timeout (task_session task) (Some (task_timeout task)).

(** *** The tasks side by side *)

(** The tasks run on one event loop and give way only at an [await], so a
    run is a sequence of these events: a polling task reaches the [append]
    of its fetch, a flusher wakes from its sleep, the write a flusher
    awaits comes to its end. *)
Inductive stream : Type := ResultStream | ErrorStream.

Inductive event : Type :=
| Fetch (i : nat) (env : fetch_env)
| Wake (s : stream)
| WriteDone (s : stream) (srv : server).

Record state : Type := {
  st_queues : queues;
  st_result_dumper : dumper;
  st_error_dumper : dumper;
  st_db : database
}.

Definition init : state :=
  {| st_queues := no_items;
     st_result_dumper := Sleeping;
     st_error_dumper := Sleeping;
     st_db := [] |}.

Definition get_queue (s : stream) (q : queues) : list (gmap string pyval) :=
  match s with ResultStream => result_queue q | ErrorStream => error_queue q end.

Definition set_queue (s : stream) (items : list (gmap string pyval)) (q : queues)
  : queues :=
  match s with
  | ResultStream => {| result_queue := items; error_queue := error_queue q |}
  | ErrorStream => {| result_queue := result_queue q; error_queue := items |}
  end.

Definition get_dumper (s : stream) (st : state) : dumper :=
  match s with
  | ResultStream => st_result_dumper st
  | ErrorStream => st_error_dumper st
  end.

Definition set_dumper (s : stream) (d : dumper) (st : state) : state :=
  match s with
  | ResultStream =>
    {| st_queues := st_queues st; st_result_dumper := d;
       st_error_dumper := st_error_dumper st; st_db := st_db st |}
  | ErrorStream =>
    {| st_queues := st_queues st; st_result_dumper := st_result_dumper st;
       st_error_dumper := d; st_db := st_db st |}
  end.

Definition sql_of (pl : pipeline) (s : stream) : string :=
  match s with
  | ResultStream => dump_sql (pl_result_dumper pl)
  | ErrorStream => dump_sql (pl_error_dumper pl)
  end.

Definition is_raised (d : dumper) : bool :=
  match d with Raised _ => true | _ => false end.

(** An exception out of a flusher comes out of [gather] and ends [poll]:
    nothing runs after it. *)
Definition halted (st : state) : bool :=
  is_raised (st_result_dumper st) || is_raised (st_error_dumper st).

Definition step (pl : pipeline) (st : state) (ev : event) : option state :=
  if halted st then None
  else match ev with
  | Fetch i env =>
    task ← pl_polling_tasks pl !! i;
    Some {| st_queues := (website_poll_cycle task env (st_queues st)).1;
            st_result_dumper := st_result_dumper st;
            st_error_dumper := st_error_dumper st;
            st_db := st_db st |}
  | Wake s =>
    match get_dumper s st with
    | Sleeping =>
      let '(queue, d) := bulk_dump_wake (get_queue s (st_queues st)) in
      Some (set_dumper s d
              {| st_queues := set_queue s queue (st_queues st);
                 st_result_dumper := st_result_dumper st;
                 st_error_dumper := st_error_dumper st;
                 st_db := st_db st |})
    | _ => None
    end
  | WriteDone s srv =>
    match get_dumper s st with
    | Writing dump_list =>
      let '(db, d) := bulk_dump_write srv (sql_of pl s) dump_list (st_db st) in
      Some (set_dumper s d
              {| st_queues := st_queues st;
                 st_result_dumper := st_result_dumper st;
                 st_error_dumper := st_error_dumper st;
                 st_db := db |})
    | _ => None
    end
  end.

Definition is_fetch (ev : event) : bool :=
  match ev with Fetch _ _ => true | _ => false end.

Fixpoint run (pl : pipeline) (st : state) (evs : list event) : option state :=
  match evs with
  | [] => Some st
  | ev :: evs' => st' ← step pl st ev; run pl st' evs'
  end.

(** *** The records of a run *)

(** The batch a flusher holds while it writes. *)
Definition held (d : dumper) : list (gmap string pyval) :=
  match d with
  | Writing dump_list => dump_list
  | _ => []
  end.

(** The records written for a stream: those of the rows of its statement,
    in the order of the rows. *)
Definition written (pl : pipeline) (s : stream)
    (db : list (string * gmap string pyval)) : list (gmap string pyval) :=
  map snd (filter (fun row => row.1 = sql_of pl s) db).

(** The records of a stream the pipeline has, oldest first: written, in
    the hands of the flusher, queued. *)
Definition kept (pl : pipeline) (s : stream) (st : state)
  : list (gmap string pyval) :=
  written pl s (st_db st) ++ held (get_dumper s st)
  ++ get_queue s (st_queues st).

(** Every write of the run ends on a server that takes every statement. *)
Definition writes_accepted (evs : list event) : Prop :=
  Forall (fun ev => match ev with
                    | WriteDone _ srv => accepting srv
                    | _ => True
                    end) evs.

(** Every item binds to the statement of the stream. *)
Definition binds_all (pl : pipeline) (s : stream)
    (items : list (gmap string pyval)) : Prop :=
  Forall (fun values => unbound (sql_of pl s) values = None) items.

(** Every record on a queue or in the hands of a flusher binds to the
    statement of its stream, and no flusher has raised. *)
Definition sound (pl : pipeline) (st : state) : Prop :=
  halted st = false /\
  forall s, binds_all pl s (get_queue s (st_queues st)) /\
            binds_all pl s (held (get_dumper s st)).

Definition other (s : stream) : stream :=
  match s with ResultStream => ErrorStream | ErrorStream => ResultStream end.

(** What one fetch puts on the queues, taken on empty queues. *)
Definition outcome (attempt : poll_task * fetch_env) : queues :=
  (website_poll_cycle attempt.1 attempt.2 no_items).1.

(** The records the fetches of a run put on a stream, in the order of the
    fetches. *)
Definition fetched (pl : pipeline) (s : stream) (evs : list event)
  : list (gmap string pyval) :=
  flat_map (fun ev => match ev with
                      | Fetch i env =>
                        match pl_polling_tasks pl !! i with
                        | Some task => get_queue s (outcome (task, env))
                        | None => []
                        end
                      | _ => []
                      end) evs.

(** A body of ASCII bytes only. *)
Definition is_ascii (data : list byte) : bool :=
  forallb (fun b => (Byte.to_N b <? 128)%N) data.

End AsyncPoller.

(** ** The targets and the remote sides of [test_web_monitoring.py] *)

Module Scenario.

Import Aiohttp DBHelper AsyncPoller.

Definition python_is_a_programming : Re.regex :=
  Re.Cat (Re.Lit (Utf8.points_of_string "Python"))
    (Re.Cat (Re.Plus Re.Space)
       (Re.Cat (Re.Lit (Utf8.points_of_string "is"))
          (Re.Cat (Re.Plus Re.Space)
             (Re.Cat (Re.Lit (Utf8.points_of_string "a"))
                (Re.Cat (Re.Plus Re.Space)
                   (Re.Lit (Utf8.points_of_string "programming"))))))).

Definition correct_url : entry :=
  {| entry_url := "https://python.org"; entry_interval := 3;
     entry_rest := [python_is_a_programming] |}.

Definition wrong_url : entry :=
  {| entry_url := "https://blablabla.org"; entry_interval := 3;
     entry_rest := [] |}.

Definition session_timeout_3 : ClientSession :=
  {| session_timeout := {| total := None; sock_connect := Some 3%Z;
                           sock_read := Some 3%Z |} |}.

Definition cannot_connect : exn :=
  Exn "aiohttp.client_exceptions.ClientConnectorError"
      "Cannot connect to host blablabla.org:443 ssl:default".

(** A network on which only python.org answers. *)
Definition internet : network := fun url _ _ =>
  if String.eqb url "https://python.org"
  then ret {| status := 200;
              content := Utf8.ascii_bytes
                "<p>Python is a programming language</p>" |}
  else raise cannot_connect.

(** A network on which every host answers with a body that is not UTF-8. *)
Definition binary_net : network := fun _ _ _ =>
  ret {| status := 200; content := [xff; xfe] |}.

Definition at_noon (n : network) : fetch_env :=
  {| net := n; now_start := 43200000000; now_read := 43200250000;
     now_handler := 43200500000 |}.

Definition test_db : DBHelper.t :=
  {| result_table := "test_result_table"; error_table := "test_error_table" |}.

(** A server that takes every statement, one that has no connection to
    give, and one that refuses every statement. *)
Definition healthy : server :=
  {| acquire := ret tt; accept := fun _ _ => ret tt |}.

Definition operational_error : exn :=
  Exn "psycopg2.OperationalError" "server closed the connection unexpectedly".

Definition unreachable : server :=
  {| acquire := raise operational_error; accept := fun _ _ => ret tt |}.

Definition refusing : server :=
  {| acquire := ret tt; accept := fun _ _ => raise operational_error |}.

Definition item (url : string) : gmap string pyval := {["url" := VStr url]}.

(** The two calls of [test_data_fetch]: python.org with its pattern and a
    timeout of 3, the unknown host without a pattern and a timeout of 5. *)
Definition python_task : poll_task :=
  {| task_interval := 3; task_session := session_timeout_3;
     task_url := "https://python.org";
     task_regex := Some (Re.compile python_is_a_programming false);
     task_timeout := 3 |}.

Definition blabla_task : poll_task :=
  {| task_interval := 3; task_session := session_timeout_3;
     task_url := "https://blablabla.org";
     task_regex := None;
     task_timeout := 5 |}.

Definition three_and_three : list (poll_task * fetch_env) :=
  let env := at_noon internet in
  [(python_task, env); (python_task, env); (python_task, env);
   (blabla_task, env); (blabla_task, env); (blabla_task, env)].

End Scenario.

(** * Properties *)

(** ** The matcher finds exactly the occurrences of a pattern *)

Section ReFacts.

Import Re.
Variable dotall : bool.

Lemma nullable_matches r : nullable r = true <-> matches dotall r [].
Proof.
  split.
  - induction r; simpl; intros H; try discriminate.
    + constructor.
    + apply andb_prop in H as [H1 H2].
      change (@nil N) with (@nil N ++ @nil N). constructor; auto.
    + apply orb_prop in H as [H|H]; [apply MAltL | apply MAltR]; auto.
    + constructor.
  - intros H. remember [] as s eqn:Es.
    induction H; simpl; try discriminate; auto.
    + apply app_eq_nil in Es as [-> ->]. rewrite IHmatches1, IHmatches2; auto.
    + rewrite IHmatches; auto.
    + rewrite IHmatches, orb_true_r; auto.
Qed.

Lemma of_bool_matches b s : matches dotall (of_bool b) s <-> b = true /\ s = [].
Proof.
  destruct b; simpl; split.
  - inversion 1; auto.
  - intros [_ ->]. constructor.
  - inversion 1.
  - intros [? _]. discriminate.
Qed.

(** A non-empty word of [r*] starts with a non-empty word of [r]. *)
Lemma star_cons r c s :
  matches dotall (Star r) (c :: s) ->
  exists s1 s2, s = s1 ++ s2 /\ matches dotall r (c :: s1)
                /\ matches dotall (Star r) s2.
Proof.
  intros H. remember (Star r) as r' eqn:Er. remember (c :: s) as w eqn:Ew.
  revert c s Ew.
  induction H; intros c' s' Ew; try discriminate.
  injection Er as ->.
  destruct s1 as [|a s1]; simpl in Ew.
  - apply IHmatches2; auto.
  - injection Ew as -> <-. exists s1, s2. auto.
Qed.

Lemma deriv_matches r c s :
  matches dotall (deriv dotall c r) s <-> matches dotall r (c :: s).
Proof.
  revert s. induction r; intros s; simpl.
  - split; inversion 1.
  - split; inversion 1.
  - rewrite of_bool_matches. split.
    + intros [E ->]. apply N.eqb_eq in E as ->. constructor.
    + inversion 1; subst. split; auto. apply N.eqb_refl.
  - rewrite of_bool_matches. split.
    + intros [E ->]. constructor; auto.
    + inversion 1; subst. auto.
  - rewrite of_bool_matches. split.
    + intros [E ->]. constructor; auto.
    + inversion 1; subst. auto.
  - destruct (nullable r1) eqn:En.
    + split.
      * inversion 1 as [| | | | | ? ? ? H1 | ? ? ? H1 | |]; subst.
        -- inversion H1; subst. change (c :: s1 ++ s2) with ((c :: s1) ++ s2).
           constructor; auto. apply IHr1; auto.
        -- change (c :: s) with ([] ++ c :: s). constructor.
           ++ apply nullable_matches; auto.
           ++ apply IHr2; auto.
      * inversion 1 as [| | | | ? ? s1 s2 H1 H2 E1 E2| | | |]; subst.
        destruct s1 as [|a s1]; simpl in E2.
        -- subst s2. apply MAltR. apply IHr2; auto.
        -- injection E2 as -> <-. apply MAltL. constructor; auto.
           apply IHr1; auto.
    + split.
      * inversion 1; subst. change (c :: s1 ++ s2) with ((c :: s1) ++ s2).
        constructor; auto. apply IHr1; auto.
      * inversion 1 as [| | | | ? ? s1 s2 H1 H2 E1 E2| | | |]; subst.
        destruct s1 as [|a s1]; simpl in E2.
        -- apply nullable_matches in H1. congruence.
        -- injection E2 as -> <-. constructor; auto. apply IHr1; auto.
  - split.
    + inversion 1; subst; [apply MAltL; apply IHr1 | apply MAltR; apply IHr2]; auto.
    + inversion 1; subst; [apply MAltL; apply IHr1 | apply MAltR; apply IHr2]; auto.
  - split.
    + inversion 1; subst. change (c :: s1 ++ s2) with ((c :: s1) ++ s2).
      constructor; auto. apply IHr; auto.
    + intros H. apply star_cons in H as (s1 & s2 & -> & H1 & H2).
      constructor; auto. apply IHr; auto.
Qed.

Lemma match_prefix_spec text : forall r,
  match_prefix dotall r text = true <->
  exists mid post, text = mid ++ post /\ matches dotall r mid.
Proof.
  induction text as [|c text IH]; intros r; simpl.
  - rewrite orb_false_r, nullable_matches. split.
    + intros H. exists [], []. auto.
    + intros (mid & post & E & H). symmetry in E.
      apply app_eq_nil in E as [-> _]. auto.
  - rewrite orb_true_iff, nullable_matches, IH. split.
    + intros [H | (mid & post & -> & H)].
      * exists [], (c :: text). auto.
      * exists (c :: mid), post. split; auto. apply deriv_matches; auto.
    + intros (mid & post & E & H). destruct mid as [|a mid]; auto.
      simpl in E. injection E as <- ->. right. exists mid, post.
      split; auto. apply deriv_matches; auto.
Qed.

Lemma search_from_spec r text : forall pos,
  is_Some (search_from dotall r text pos) <->
  exists pre mid post, text = pre ++ mid ++ post /\ matches dotall r mid.
Proof.
  induction text as [|c text IH]; intros pos; cbn [search_from].
  - destruct (match_prefix dotall r []) eqn:E.
    + split; [intros _ | intros _; eexists; reflexivity].
      apply match_prefix_spec in E as (mid & post & E & H).
      exists [], mid, post. auto.
    + split; [intros [? ?]; discriminate |].
      intros (pre & mid & post & Et & H).
      destruct pre; [|discriminate]. simpl in Et.
      assert (match_prefix dotall r [] = true) by (apply match_prefix_spec; eauto).
      congruence.
  - destruct (match_prefix dotall r (c :: text)) eqn:E.
    + split; [intros _ | intros _; eexists; reflexivity].
      apply match_prefix_spec in E as (mid & post & E & H).
      exists [], mid, post. auto.
    + rewrite IH. split.
      * intros (pre & mid & post & -> & H). exists (c :: pre), mid, post. auto.
      * intros (pre & mid & post & Et & H). destruct pre as [|a pre].
        -- simpl in Et.
           assert (match_prefix dotall r (c :: text) = true)
             by (apply match_prefix_spec; eauto).
           congruence.
        -- injection Et as <- ->. eauto.
Qed.

End ReFacts.

Lemma search_occurs (p : Re.Pattern) (text : list N) :
  is_Some (Re.search p text) <-> Re.occurs_in p text.
Proof. apply search_from_spec. Qed.

(** ** A body that does not decode has a fault to report *)

Section Utf8Facts.

Import Utf8.

Lemma fmap_cons_none (c : N) (o : option (list N)) :
  cons c <$> o = None -> o = None.
Proof. destruct o; [discriminate | reflexivity]. Qed.

Lemma first_fault_found (n : nat) : forall (data : list byte) (pos : nat),
  (length data <= n)%nat ->
  decode_points data = None -> is_Some (first_fault data pos).
Proof.
  induction n as [|n IH]; intros data pos Hlen Hd;
    destruct data as [|b0 rest]; try discriminate; simpl in Hlen; [lia|].
  cbn [decode_points first_fault] in *. cbv zeta in *.
  destruct (Byte.to_N b0 <? 0x80)%N.
  { apply fmap_cons_none in Hd. apply IH; [lia | exact Hd]. }
  destruct (Byte.to_N b0 <? 0xC0)%N; [eauto|].
  destruct (Byte.to_N b0 <? 0xE0)%N.
  { destruct rest as [|b1 rest1]; [case_match; eauto|].
    case_match; [|case_match; eauto].
    apply fmap_cons_none in Hd. apply IH; [simpl in Hlen; lia | exact Hd]. }
  destruct (Byte.to_N b0 <? 0xF0)%N.
  { destruct rest as [|b1 [|b2 rest2]]; [eauto | case_match; eauto |].
    case_match; [|case_match; eauto].
    apply fmap_cons_none in Hd. apply IH; [simpl in Hlen; lia | exact Hd]. }
  destruct (Byte.to_N b0 <? 0xF8)%N; [|eauto].
  destruct (0xF5 <=? Byte.to_N b0)%N eqn:E5; [eauto|].
  destruct rest as [|b1 [|b2 [|b3 rest3]]];
    [eauto | case_match; eauto | repeat case_match; eauto |].
  case_match; [|repeat case_match; eauto].
  apply fmap_cons_none in Hd. apply IH; [simpl in Hlen; lia | exact Hd].
Qed.

(** Whenever [data.decode('utf')] raises, the message is that of a fault
    found in [data]. *)
Lemma unicode_decode_error_message (data : list byte) :
  decode_points data = None ->
  exists f, first_fault data 0 = Some f /\
            unicode_decode_error data
            = Exn "UnicodeDecodeError" (fault_message data f).
Proof.
  intros Hd.
  destruct (first_fault_found (length data) data 0 (le_n _) Hd) as [f Hf].
  exists f. split; [exact Hf|]. unfold unicode_decode_error.
  rewrite Hf. reflexivity.
Qed.

(** The messages of some bodies. *)
Example decode_messages :
  map (fun data => exn_msg (unicode_decode_error data))
      [[xff; xfe]; [x61; x80]; [xc3]; [xc3; x28]; [xe2; x82];
       [xe2; x82; x28]; [xed; xa0; x80]; [xf0; x9f; x98]]
  = ["'utf-8' codec can't decode byte 0xff in position 0: invalid start byte";
     "'utf-8' codec can't decode byte 0x80 in position 1: invalid start byte";
     "'utf-8' codec can't decode byte 0xc3 in position 0: unexpected end of data";
     "'utf-8' codec can't decode byte 0xc3 in position 0: invalid continuation byte";
     "'utf-8' codec can't decode bytes in position 0-1: unexpected end of data";
     "'utf-8' codec can't decode bytes in position 0-1: invalid continuation byte";
     "'utf-8' codec can't decode byte 0xed in position 0: invalid continuation byte";
     "'utf-8' codec can't decode bytes in position 0-2: unexpected end of data"].
Proof. vm_compute. reflexivity. Qed.

End Utf8Facts.

(** ** The fetcher *)

Section Fetcher.

Import Aiohttp AsyncPoller.

Variables (session : ClientSession) (url : string).
Variables (regex : option Re.Pattern) (timeout : Z) (env : fetch_env).

Local Abbreviation fresh := (fresh_record url env).
Local Abbreviation seen := (seen_record url env).
Local Abbreviation failed := failed_record.

(** The three ways through [fetch_page_data]. *)
Lemma fetch_page_data_cases (q : queues) :
  match net env url true (request_timeout session (Some timeout)) with
  | inl error =>
    fetch_page_data session url regex timeout env q =
    (append_error q (failed error fresh),
     total_seconds (now_handler env - now_start env))
  | inr response =>
    match parse_web_page regex (content response) with
    | inl error =>
      fetch_page_data session url regex timeout env q =
      (append_error q (failed error (seen response)),
       total_seconds (now_handler env - now_start env))
    | inr found =>
      fetch_page_data session url regex timeout env q =
      (append_result q (<["regex_found" := found]> (seen response)),
       total_seconds (now_read env - now_start env))
    end
  end.
Proof.
  unfold fetch_page_data, fetch_try.
  destruct (net env url true _) as [error|response]; [reflexivity|].
  destruct (parse_web_page regex (content response)); reflexivity.
Qed.

(** A fetch appends one record to one queue and leaves the other as it
    was. *)
Lemma fetch_page_data_routes (q : queues) :
  exists r,
    let q' := (fetch_page_data session url regex timeout env q).1 in
    (result_queue q' = result_queue q ++ [r] /\ error_queue q' = error_queue q) \/
    (result_queue q' = result_queue q /\ error_queue q' = error_queue q ++ [r]).
Proof.
  pose proof (fetch_page_data_cases q) as H.
  destruct (net env url true _) as [error|response].
  - rewrite H. eexists. right. split; reflexivity.
  - destruct (parse_web_page regex (content response)); rewrite H;
      eexists; [right | left]; split; reflexivity.
Qed.

Lemma append_result_not_error (q : queues) (r r' : gmap string pyval) :
  append_result q r <> append_error q r'.
Proof.
  intros H. apply (f_equal (fun x => length (result_queue x))) in H.
  simpl in H. rewrite length_app in H. simpl in H. lia.
Qed.

Lemma append_result_inj (q : queues) (r r' : gmap string pyval) :
  append_result q r = append_result q r' -> r = r'.
Proof.
  intros H. apply (f_equal result_queue) in H. simpl in H.
  apply app_inv_head in H. congruence.
Qed.

Lemma append_error_inj (q : queues) (r r' : gmap string pyval) :
  append_error q r = append_error q r' -> r = r'.
Proof.
  intros H. apply (f_equal error_queue) in H. simpl in H.
  apply app_inv_head in H. congruence.
Qed.

(** What a record on the result queue says about the fetch it is from. *)
Lemma fetch_success_inv (q : queues) (r : gmap string pyval) :
  (fetch_page_data session url regex timeout env q).1 = append_result q r ->
  exists response found,
    net env url true (request_timeout session (Some timeout)) = inr response /\
    parse_web_page regex (content response) = inr found /\
    r = <["regex_found" := found]> (seen response).
Proof.
  pose proof (fetch_page_data_cases q) as H. intros Hq.
  destruct (net env url true _) as [error|response].
  - rewrite H in Hq. simpl in Hq. symmetry in Hq.
    apply append_result_not_error in Hq as [].
  - destruct (parse_web_page regex (content response)) as [error|found] eqn:Ep;
      rewrite H in Hq; simpl in Hq.
    + symmetry in Hq. apply append_result_not_error in Hq as [].
    + apply append_result_inj in Hq. eauto.
Qed.

(** What a record on the error queue says about the fetch it is from. *)
Lemma fetch_failure_inv (q : queues) (r : gmap string pyval) :
  (fetch_page_data session url regex timeout env q).1 = append_error q r ->
  (exists error,
     net env url true (request_timeout session (Some timeout)) = inl error /\
     r = failed error fresh) \/
  (exists response error,
     net env url true (request_timeout session (Some timeout)) = inr response /\
     parse_web_page regex (content response) = inl error /\
     r = failed error (seen response)).
Proof.
  pose proof (fetch_page_data_cases q) as H. intros Hq.
  destruct (net env url true _) as [error|response].
  - rewrite H in Hq. simpl in Hq. apply append_error_inj in Hq. eauto.
  - destruct (parse_web_page regex (content response)) as [error|found] eqn:Ep;
      rewrite H in Hq; simpl in Hq.
    + apply append_error_inj in Hq. right. eauto.
    + apply append_result_not_error in Hq as [].
Qed.

End Fetcher.

(** ** Every fetch leaves one record on one queue *)

Section Routing.

Import Aiohttp AsyncPoller.

Lemma website_poll_cycle_queues (task : poll_task) (env : fetch_env) (q : queues) :
  (website_poll_cycle task env q).1 =
  (fetch_page_data (task_session task) (task_url task) (task_regex task)
     (task_timeout task) env q).1.
Proof.
  unfold website_poll_cycle.
  destruct (fetch_page_data _ _ _ _ _ _); reflexivity.
Qed.

Lemma fetch_page_data_queued session url regex timeout env (q : queues) :
  queued (fetch_page_data session url regex timeout env q).1 = S (queued q).
Proof.
  destruct (fetch_page_data_routes session url regex timeout env q)
    as (r & [[Hr He] | [Hr He]]);
    unfold queued; rewrite Hr, He, length_app; simpl; lia.
Qed.



End Routing.

(** ** The failure record *)

Section Failures.

Import Aiohttp AsyncPoller.

Lemma failed_record_error (error : exn) (d : gmap string pyval) :
  failed_record error d !! "error" = Some (VTuple [VStr (error_text error)]).
Proof. unfold failed_record. apply lookup_insert_eq. Qed.

Lemma failed_record_other (error : exn) (d : gmap string pyval) (k : string) :
  k <> "error" -> failed_record error d !! k = d !! k.
Proof. intros H. unfold failed_record. apply lookup_insert_ne. congruence. Qed.

Lemma fresh_record_dom (url : string) (env : fetch_env) :
  dom (fresh_record url env) = {["url"; "timestamp"]}.
Proof.
  unfold fresh_record. rewrite dom_insert_L, dom_singleton_L. set_solver.
Qed.

Lemma seen_record_dom (url : string) (env : fetch_env) (response : Response) :
  dom (seen_record url env response) =
  {["url"; "timestamp"; "duration"; "status_code"]}.
Proof.
  unfold seen_record. rewrite !dom_insert_L, fresh_record_dom. set_solver.
Qed.

Lemma fresh_record_url (url : string) (env : fetch_env) :
  fresh_record url env !! "url" = Some (VStr url).
Proof. reflexivity. Qed.

Lemma fresh_record_timestamp (url : string) (env : fetch_env) :
  fresh_record url env !! "timestamp" = Some (VDatetime (now_start env)).
Proof. reflexivity. Qed.

Lemma seen_record_url (url : string) (env : fetch_env) (response : Response) :
  seen_record url env response !! "url" = Some (VStr url).
Proof. reflexivity. Qed.

Lemma seen_record_timestamp (url : string) (env : fetch_env) (response : Response) :
  seen_record url env response !! "timestamp" = Some (VDatetime (now_start env)).
Proof. reflexivity. Qed.

Lemma fetch_try_raised session url regex timeout env d (q : queues) :
  (fetch_try session url regex timeout env d q).2 =
  match net env url true (request_timeout session (Some timeout)) with
  | inl error => inl error
  | inr response =>
    match parse_web_page regex (content response) with
    | inl error => inl error
    | inr _ => inr (total_seconds (now_read env - now_start env))
    end
  end.
Proof.
  unfold fetch_try.
  destruct (net env url true _) as [error|response]; [reflexivity|].
  destruct (parse_web_page regex (content response)); reflexivity.
Qed.

(** C4, as the code has it.  The record a failed fetch appends to the
    error queue has the entries [url], [timestamp] and [error], and [error]
    carries the rendering of the type and the message of the exception
    that was raised, by the request or by the decoding.  It has an entry
    [duration] exactly when the remote side had answered, so that the
    failure is one of decoding the body; the record of a failed request
    has none. *)
Theorem failure_record_fields session url regex timeout env (q : queues)
    (r : gmap string pyval) :
  (fetch_page_data session url regex timeout env q).1 = append_error q r ->
  r !! "url" = Some (VStr url) /\
  r !! "timestamp" = Some (VDatetime (now_start env)) /\
  (exists error v,
     (net env url true (request_timeout session (Some timeout)) = inl error \/
      exists response,
        net env url true (request_timeout session (Some timeout))
          = inr response /\
        parse_web_page regex (content response) = inl error) /\
     r !! "error" = Some v /\
     carries v (type_repr error +:+ "--" +:+ exn_msg error)) /\
  (is_Some (r !! "duration") <->
   exists response,
     net env url true (request_timeout session (Some timeout)) = inr response)
  /\
  (forall error,
     net env url true (request_timeout session (Some timeout)) = inl error ->
     r !! "duration" = None).
Proof.
  intros Hq.
  apply fetch_failure_inv in Hq
    as [(error & Hn & ->) | (response & error & Hn & Hp & ->)];
    (split; [reflexivity|]); (split; [reflexivity|]); split.
  - exists error. eexists. split; [left; exact Hn|]. split.
    + apply failed_record_error.
    + right. reflexivity.
  - split; [|intros error' _; reflexivity]. split.
    + intros [v Hv]. discriminate.
    + intros [response Hr]. congruence.
  - exists error. eexists. split; [right; eauto|]. split.
    + apply failed_record_error.
    + right. reflexivity.
  - split; [|intros error' Hn'; congruence]. split; [eauto|].
    intros _. eexists. reflexivity.
Qed.

(** The record of a failed request has no entry [duration]. *)
Lemma failure_record_without_duration :
  let q := (fetch_page_data Scenario.session_timeout_3 "https://blablabla.org"
              None 5 (Scenario.at_noon Scenario.internet) no_items).1 in
  exists r, result_queue q = [] /\ error_queue q = [r] /\
            r !! "duration" = None.
Proof. eexists. repeat split. Qed.

Lemma failure_record_fields_witness :
  let env := Scenario.at_noon Scenario.internet in
  let r := failed_record Scenario.cannot_connect
             (fresh_record "https://blablabla.org" env) in
  (fetch_page_data Scenario.session_timeout_3 "https://blablabla.org" None 5
     env no_items).1 = append_error no_items r /\
  r !! "url" = Some (VStr "https://blablabla.org") /\
  r !! "timestamp" = Some (VDatetime (now_start env)) /\
  r !! "duration" = None.
Proof.
  split; [reflexivity|].
  pose proof (failure_record_fields Scenario.session_timeout_3
                "https://blablabla.org" None 5
                (Scenario.at_noon Scenario.internet) no_items
                (failed_record Scenario.cannot_connect
                   (fresh_record "https://blablabla.org"
                      (Scenario.at_noon Scenario.internet)))
                eq_refl) as (Hu & Ht & _ & _ & Hd).
  split; [exact Hu|]. split; [exact Ht|].
  exact (Hd Scenario.cannot_connect eq_refl).
Defined.

End Failures.

(** ** No failure of a fetch reaches the caller *)

Section Recovery.

Import Aiohttp AsyncPoller.

Lemma parse_web_page_undecodable (p : Re.Pattern) (data : list byte) :
  Utf8.decode_points data = None ->
  parse_web_page (Some p) data = inl (Utf8.unicode_decode_error data).
Proof. intros H. unfold parse_web_page, Utf8.decode. rewrite H. reflexivity. Qed.

Lemma parse_web_page_decodable (regex : option Re.Pattern) (data : list byte) :
  regex = None \/ is_Some (Utf8.decode_points data) ->
  exists found, parse_web_page regex data = inr found.
Proof.
  intros [-> | [text Ht]]; [eexists; reflexivity|].
  destruct regex as [p|]; [|eexists; reflexivity].
  unfold parse_web_page, Utf8.decode. rewrite Ht. simpl.
  destruct (Re.search p text); eexists; reflexivity.
Qed.

(** C5.  [fetch_page_data] returns in every case; an [exn] is an instance
    of [Exception], and the cancellation of the task, which
    [except Exception] lets pass, is no outcome of a request.  When the
    request or the reading of the body raises, the call returns the
    duration taken in the handler and has appended one record carrying
    that error to the error queue, the result queue being as it was; the
    same holds when the remote side answers with a body that is not UTF-8
    and a pattern is configured, the error being the [UnicodeDecodeError]
    of that body; in every other case the call has appended a result. *)
Theorem fetch_failures_are_recorded session url regex timeout env (q : queues) :
  (forall error,
     net env url true (request_timeout session (Some timeout)) = inl error ->
     exists r v,
       fetch_page_data session url regex timeout env q
       = (append_error q r, total_seconds (now_handler env - now_start env)) /\
       r !! "error" = Some v /\ carries v (error_text error)) /\
  (forall p response,
     regex = Some p ->
     net env url true (request_timeout session (Some timeout)) = inr response ->
     Utf8.decode_points (content response) = None ->
     exists r v,
       fetch_page_data session url regex timeout env q
       = (append_error q r, total_seconds (now_handler env - now_start env)) /\
       r !! "error" = Some v /\
       carries v (error_text (Utf8.unicode_decode_error (content response)))) /\
  (forall response,
     net env url true (request_timeout session (Some timeout)) = inr response ->
     regex = None \/ is_Some (Utf8.decode_points (content response)) ->
     exists r,
       fetch_page_data session url regex timeout env q
       = (append_result q r, total_seconds (now_read env - now_start env))).
Proof.
  pose proof (fetch_page_data_cases session url regex timeout env q) as H.
  split; [|split].
  - intros error Hn. rewrite Hn in H.
    do 2 eexists. split; [exact H|]. split.
    + apply failed_record_error.
    + right. reflexivity.
  - intros p response -> Hn Hd.
    rewrite Hn, (parse_web_page_undecodable p _ Hd) in H.
    do 2 eexists. split; [exact H|]. split.
    + apply failed_record_error.
    + right. reflexivity.
  - intros response Hn Hok. rewrite Hn in H.
    destruct (parse_web_page_decodable regex (content response) Hok)
      as [found Hf].
    rewrite Hf in H. eexists. exact H.
Qed.

Lemma fetch_failures_are_recorded_witness :
  exists r v,
    fetch_page_data Scenario.session_timeout_3 "https://python.org"
      (Some (Re.compile Scenario.python_is_a_programming true)) 3
      (Scenario.at_noon Scenario.binary_net) no_items
    = (append_error no_items r, 0.5%float) /\
    r !! "error" = Some v /\
    carries v ("<class 'UnicodeDecodeError'>--'utf-8' codec can't decode "
               +:+ "byte 0xff in position 0: invalid start byte").
Proof.
  exact (proj1 (proj2 (fetch_failures_are_recorded Scenario.session_timeout_3
                  "https://python.org"
                  (Some (Re.compile Scenario.python_is_a_programming true)) 3
                  (Scenario.at_noon Scenario.binary_net) no_items))
           _ {| status := 200; content := [xff; xfe] |}
           eq_refl eq_refl eq_refl).
Defined.

End Recovery.

(** ** The pattern field of a result *)

Section PatternField.

Import Aiohttp AsyncPoller.

Lemma parse_web_page_found (p : Re.Pattern) (data : list byte) (found : pyval) :
  parse_web_page (Some p) data = inr found ->
  exists text b,
    Utf8.decode_points data = Some text /\ found = VBool b /\
    (b = true <-> Re.occurs_in p text).
Proof.
  unfold parse_web_page, Utf8.decode.
  destruct (Utf8.decode_points data) as [text|]; simpl; [|discriminate].
  pose proof (search_occurs p text) as Hs.
  destruct (Re.search p text) as [pos|]; intros [= <-]; exists text.
  - exists true. repeat split; auto. intros _. apply Hs. eauto.
  - exists false. repeat split; auto; [discriminate|].
    intros H. apply Hs in H as [? ?]. discriminate.
Qed.

Lemma build_task_regex (session : ClientSession) (e : entry) :
  task_regex (build_task session e) =
  match entry_rest e with
  | [] => None
  | source :: _ => Some (Re.compile source true)
  end.
Proof.
  unfold build_task, entry_len. simpl.
  destruct (entry_rest e); reflexivity.
Qed.

(** C6.  For a target set up by [build_tasks], the record of a successful
    fetch has [regex_found] equal to [None] when the target has no pattern;
    with a pattern it is [True] when some part of the decoded body is in
    the language of the pattern read with [.] matching every character,
    line feed included, and [False] otherwise. *)
Theorem pattern_matched_field session (e : entry) env (q : queues)
    (r : gmap string pyval) :
  (website_poll_cycle (build_task session e) env q).1 = append_result q r ->
  match entry_rest e with
  | [] => r !! "regex_found" = Some VNone
  | source :: _ =>
    exists response text b,
      net env (entry_url e) true (get_timeout (build_task session e))
        = inr response /\
      Utf8.decode_points (content response) = Some text /\
      r !! "regex_found" = Some (VBool b) /\
      (b = true <->
       exists pre mid post,
         text = pre ++ mid ++ post /\ Re.matches true source mid)
  end.
Proof.
  rewrite website_poll_cycle_queues. intros Hq.
  apply fetch_success_inv in Hq as (response & found & Hn & Hp & ->).
  rewrite build_task_regex in Hp.
  destruct (entry_rest e) as [|source rest].
  - simpl in Hp. injection Hp as <-. apply lookup_insert_eq.
  - apply parse_web_page_found in Hp as (text & b & Hd & -> & Hb).
    exists response, text, b.
    split; [exact Hn|]. split; [exact Hd|]. split; [apply lookup_insert_eq|].
    exact Hb.
Qed.

Lemma pattern_matched_field_witness :
  let task := build_task Scenario.session_timeout_3 Scenario.correct_url in
  let env := Scenario.at_noon Scenario.internet in
  exists response text b,
    net env "https://python.org" true (get_timeout task) = inr response /\
    Utf8.decode_points (content response) = Some text /\
    <["regex_found" := VBool true]>
      (seen_record "https://python.org" env
         {| status := 200;
            content := Utf8.ascii_bytes
               "<p>Python is a programming language</p>" |})
      !! "regex_found" = Some (VBool b) /\
    (b = true <->
     exists pre mid post,
       text = pre ++ mid ++ post /\
       Re.matches true Scenario.python_is_a_programming mid).
Proof.
  exact (pattern_matched_field Scenario.session_timeout_3 Scenario.correct_url
           (Scenario.at_noon Scenario.internet) no_items _ eq_refl).
Defined.

(** Under [re.DOTALL] the pattern [a.b] is found across a line break, and
    without the flag it is not. *)
Example dot_spans_newline :
  Re.search (Re.compile (Re.Cat (Re.Chr 97) (Re.Cat Re.Dot (Re.Chr 98))) true)
            [120; 97; 10; 98]%N = Some 1%nat /\
  Re.search (Re.compile (Re.Cat (Re.Chr 97) (Re.Cat Re.Dot (Re.Chr 98))) false)
            [120; 97; 10; 98]%N = None.
Proof. split; reflexivity. Qed.

End PatternField.

(** ** A result record binds every parameter of the result statement *)

Section Binding.

Import Aiohttp DBHelper AsyncPoller.

Lemma parameters_from_no_percent (name rest : string) :
  no_percent name = true ->
  parameters_from InText (name +:+ rest) = parameters_from InText rest.
Proof.
  induction name as [|c name IH]; simpl; [reflexivity|].
  intros H. apply andb_prop in H as [Hc Hn].
  destruct (Ascii.eqb c "%"); [discriminate|]. auto.
Qed.

(** The statements with the name of the table filled in. *)
Lemma insert_result_sql_text (db : DBHelper.t) :
  insert_result_sql db =
  "INSERT INTO " +:+
  (result_table db +:+
   (" (url, status_code, regex_found, timestamp, duration) VALUES " +:+
    "(%(url)s, %(status_code)s, %(regex_found)s, %(timestamp)s, %(duration)s) ")).
Proof. vm_compute. reflexivity. Qed.

Lemma insert_error_sql_text (db : DBHelper.t) :
  insert_error_sql db =
  "INSERT INTO " +:+
  (error_table db +:+
   " (url, error, timestamp) VALUES (%(url)s, %(error)s, %(timestamp)s) ").
Proof. vm_compute. reflexivity. Qed.

Lemma parameters_into (table rest : string) :
  no_percent table = true ->
  parameters ("INSERT INTO " +:+ (table +:+ rest)) = parameters rest.
Proof.
  intros H. unfold parameters.
  change (parameters_from InText ("INSERT INTO " +:+ (table +:+ rest)))
    with (parameters_from InText (table +:+ rest)).
  apply parameters_from_no_percent, H.
Qed.

Lemma insert_result_sql_parameters (db : DBHelper.t) :
  no_percent (result_table db) = true ->
  parameters (insert_result_sql db) = parameters RESULT_SQL.
Proof.
  intros H. rewrite insert_result_sql_text, parameters_into by exact H.
  vm_compute. reflexivity.
Qed.

Lemma insert_error_sql_parameters (db : DBHelper.t) :
  no_percent (error_table db) = true ->
  parameters (insert_error_sql db) = parameters ERROR_SQL.
Proof.
  intros H. rewrite insert_error_sql_text, parameters_into by exact H.
  vm_compute. reflexivity.
Qed.

Lemma RESULT_SQL_parameters :
  parameters RESULT_SQL =
  ["url"; "status_code"; "regex_found"; "timestamp"; "duration"].
Proof. vm_compute. reflexivity. Qed.

Lemma ERROR_SQL_parameters :
  parameters ERROR_SQL = ["url"; "error"; "timestamp"].
Proof. vm_compute. reflexivity. Qed.

Lemma unbound_none (sql : string) (values : gmap string pyval) :
  Forall (fun name => is_Some (values !! name)) (parameters sql) ->
  unbound sql values = None.
Proof.
  unfold unbound. induction 1 as [|name names [v Hv] _ IH]; simpl.
  - reflexivity.
  - rewrite Hv. rewrite bool_decide_eq_false_2 by discriminate. exact IH.
Qed.

Lemma parse_web_page_no_pattern (data : list byte) :
  parse_web_page None data = inr VNone.
Proof. reflexivity. Qed.

(** C10.  The record of a successful fetch always has the key
    [regex_found]; without a pattern its value is [None].  The record has
    an entry for each named parameter of the result statement, so binding
    it to the statement of any result table never stops at a missing key. *)
Theorem result_record_binds session url regex timeout env (q : queues)
    (r : gmap string pyval) :
  (fetch_page_data session url regex timeout env q).1 = append_result q r ->
  is_Some (r !! "regex_found") /\
  (regex = None -> r !! "regex_found" = Some VNone) /\
  In "regex_found" (parameters RESULT_SQL) /\
  Forall (fun name => is_Some (r !! name)) (parameters RESULT_SQL) /\
  (forall db, no_percent (result_table db) = true ->
              unbound (insert_result_sql db) r = None).
Proof.
  intros Hq.
  apply fetch_success_inv in Hq as (response & found & Hn & Hp & ->).
  assert (Forall (fun name =>
            is_Some (<["regex_found" := found]> (seen_record url env response)
                     !! name)) (parameters RESULT_SQL)) as Hall.
  { rewrite RESULT_SQL_parameters.
    repeat constructor; eexists; reflexivity. }
  split; [eexists; apply lookup_insert_eq|].
  split; [intros ->; simpl in Hp; injection Hp as <-; apply lookup_insert_eq|].
  split; [rewrite RESULT_SQL_parameters; simpl; tauto|].
  split; [exact Hall|].
  intros db Hdb. apply unbound_none.
  rewrite insert_result_sql_parameters by exact Hdb. exact Hall.
Qed.

Lemma result_record_binds_witness :
  let env := Scenario.at_noon Scenario.internet in
  let r := <["regex_found" := VNone]>
             (seen_record "https://python.org" env
                {| status := 200;
                   content := Utf8.ascii_bytes
                     "<p>Python is a programming language</p>" |}) in
  (fetch_page_data Scenario.session_timeout_3 "https://python.org" None 3
     env no_items).1 = append_result no_items r /\
  r !! "regex_found" = Some VNone /\
  unbound (insert_result_sql Scenario.test_db) r = None.
Proof.
  split; [reflexivity|].
  pose proof (result_record_binds Scenario.session_timeout_3
                "https://python.org" None 3
                (Scenario.at_noon Scenario.internet) no_items _ eq_refl)
    as (_ & Hnone & _ & _ & Hdb).
  split; [exact (Hnone eq_refl) | exact (Hdb Scenario.test_db eq_refl)].
Defined.

End Binding.

(** ** The cadence of a poller *)

Section Cadence.

Import Aiohttp AsyncPoller.

(** The duration a fetch returns does not depend on what is queued. *)
Lemma fetch_duration_any_queue session url regex timeout env (q q' : queues) :
  (fetch_page_data session url regex timeout env q).2 =
  (fetch_page_data session url regex timeout env q').2.
Proof.
  pose proof (fetch_page_data_cases session url regex timeout env q) as H.
  pose proof (fetch_page_data_cases session url regex timeout env q') as H'.
  destruct (net env url true _) as [error|response].
  - rewrite H, H'. reflexivity.
  - destruct (parse_web_page regex (content response));
      rewrite H, H'; reflexivity.
Qed.

Lemma website_poll_cycle_sleep (task : poll_task) (env : fetch_env) (q : queues) :
  (website_poll_cycle task env q).2 =
  next_sleep (task_interval task)
    (fetch_page_data (task_session task) (task_url task) (task_regex task)
       (task_timeout task) env q).2.
Proof.
  unfold website_poll_cycle.
  destruct (fetch_page_data _ _ _ _ _ _); reflexivity.
Qed.

(** C3.  In every turn of the loop of [website_poll] for a target with
    interval [i], when the fetch returned the duration [d] the argument of
    the sleep that follows is [max(0.1, i - d)] as Python computes it: the
    interval made a float, the subtraction of floats, and the greater of
    the floor [0.1] and the difference.  So the sleeps of a run of the
    loop are these values, turn by turn; only an interval beyond the range
    of floats ends the loop, by the [OverflowError] of the subtraction. *)
Theorem sleep_is_interval_less_duration (task : poll_task) :
  (forall env (q : queues),
     let d := (fetch_page_data (task_session task) (task_url task)
                 (task_regex task) (task_timeout task) env q).2 in
     (website_poll_cycle task env q).2
     = (do i <- float_of_int (task_interval task);
        ret (py_max 0.1 (i - d))%float)) /\
  (forall i, float_of_int (task_interval task) = ret i ->
     forall envs (q : queues),
       (website_poll task envs q).1.2
       = map (fun env =>
                py_max 0.1
                  (i - (fetch_page_data (task_session task) (task_url task)
                          (task_regex task) (task_timeout task) env
                          no_items).2)%float)
             envs /\
       (website_poll task envs q).2 = None) /\
  (forall error, float_of_int (task_interval task) = raise error ->
     forall env envs (q : queues),
       (website_poll task (env :: envs) q).1.2 = [] /\
       (website_poll task (env :: envs) q).2 = Some error).
Proof.
  assert (forall env (q : queues),
     (website_poll_cycle task env q).2
     = (do i <- float_of_int (task_interval task);
        ret (py_max 0.1
               (i - (fetch_page_data (task_session task) (task_url task)
                       (task_regex task) (task_timeout task) env q).2))%float))
    as Hone.
  { intros env q. rewrite website_poll_cycle_sleep. reflexivity. }
  split; [exact Hone|]. split.
  - intros i Hi. induction envs as [|env envs IH]; intros q; simpl;
      [split; reflexivity|].
    specialize (Hone env q). rewrite Hi in Hone. simpl in Hone.
    destruct (website_poll_cycle task env q) as [q1 sleep]. simpl in Hone.
    subst sleep. specialize (IH q1).
    destruct (website_poll task envs q1) as [[q2 sleeps] stopped].
    simpl in *. destruct IH as [-> ->]. split; [|reflexivity].
    f_equal. f_equal. f_equal. apply fetch_duration_any_queue.
  - intros error He env envs q. simpl.
    specialize (Hone env q). rewrite He in Hone. simpl in Hone.
    destruct (website_poll_cycle task env q) as [q1 sleep]. simpl in Hone.
    subst sleep. split; reflexivity.
Qed.

Lemma sleep_is_interval_less_duration_witness :
  (website_poll Scenario.python_task
     [Scenario.at_noon Scenario.internet; Scenario.at_noon Scenario.internet]
     no_items).1.2 = [2.75%float; 2.75%float].
Proof.
  exact (proj1 (proj1 (proj2 (sleep_is_interval_less_duration
                                 Scenario.python_task))
                  3%float eq_refl
                  [Scenario.at_noon Scenario.internet;
                   Scenario.at_noon Scenario.internet] no_items)).
Defined.

(** The subtraction is one of floats: an interval of one second less a
    fetch of 0.8 s leaves 0.19999999999999996 s; a fetch longer than the
    interval is followed by the floor; an interval too large for a float
    raises. *)
Example sleep_in_floats :
  next_sleep 1 0.8 = ret 0.19999999999999996%float /\
  next_sleep 3 0.1 = ret 2.9%float /\
  next_sleep 3 5 = ret 0.1%float /\
  next_sleep 3 2.9 = ret 0.10000000000000009%float /\
  next_sleep (10 ^ 400) 0.25 = raise overflow_error /\
  total_seconds 250000 = 0.25%float /\
  total_seconds 100000 = 0.1%float.
Proof. repeat split. Qed.

End Cadence.

(** ** The timeout a polling task fetches under *)

Section Timeouts.

Import Aiohttp AsyncPoller.

Lemma build_task_timeout (session : ClientSession) (e : entry) :
  task_timeout (build_task session e) = 4%Z /\
  task_session (build_task session e) = session /\
  task_interval (build_task session e) = entry_interval e /\
  task_url (build_task session e) = entry_url e.
Proof. repeat split. Qed.

(** Whatever [web_timeout] is given to [poll], each polling task calls
    [fetch_page_data] with the default [timeout=4] of [website_poll], and
    the GET runs under [ClientTimeout(total=4)], which replaces the timeout
    of the session. *)
Lemma poll_tasks_timeout db urls (web_timeout dump_interval : Z) :
  Forall (fun task =>
            task_timeout task = 4%Z /\
            get_timeout task
            = {| total := Some 4%Z; sock_connect := None; sock_read := None |} /\
            session_timeout (task_session task)
            = {| total := None; sock_connect := Some web_timeout;
                 sock_read := Some web_timeout |})
         (pl_polling_tasks (poll db urls web_timeout dump_interval)).
Proof.
  unfold poll, build_tasks. simpl. apply Forall_map, Forall_forall.
  intros e _. repeat split.
Qed.

(** C7, at [web_timeout = 3] as [main] sets it.  The session is given
    connect and read timeouts of 3 seconds, but the one polling task is
    called with [timeout = 4], and its requests run under a total timeout
    of 4 seconds with no connect or read timeout. *)
Theorem web_timeout_not_passed_on :
  exists task,
    pl_polling_tasks (poll Scenario.test_db [Scenario.wrong_url] 3 3) = [task] /\
    session_timeout (task_session task)
    = {| total := None; sock_connect := Some 3%Z; sock_read := Some 3%Z |} /\
    task_timeout task = 4%Z /\
    get_timeout task
    = {| total := Some 4%Z; sock_connect := None; sock_read := None |} /\
    forall env (q : queues),
      website_poll_cycle task env q
      = (let '(q', d) := fetch_page_data Scenario.session_timeout_3
                           "https://blablabla.org" None 4 env q in
         (q', next_sleep 3 d)).
Proof. eexists. repeat split. Qed.

End Timeouts.

(** ** The batch flusher *)

Section Flusher.

Import Aiohttp DBHelper AsyncPoller.

Lemma drain_spec {A} (turns : nat) : forall queue dump_list : list A,
  (length queue <= turns)%nat ->
  drain turns queue dump_list = ret ([], dump_list ++ queue).
Proof.
  induction turns as [|turns IH]; intros queue dump_list Hlen; simpl.
  - destruct queue; simpl in Hlen; [|lia]. rewrite app_nil_r. reflexivity.
  - case_bool_decide as Hq.
    + subst queue. rewrite app_nil_r. reflexivity.
    + destruct queue as [|item rest]; [congruence|]. simpl.
      rewrite IH by (simpl in Hlen; lia).
      rewrite <- app_assoc. reflexivity.
Qed.

Lemma bulk_dump_wake_spec (queue : list (gmap string pyval)) :
  bulk_dump_wake queue =
  match queue with
  | [] => ([], Sleeping)
  | _ => ([], Writing queue)
  end.
Proof.
  unfold bulk_dump_wake. case_bool_decide as Hq.
  - subst. reflexivity.
  - rewrite drain_spec by lia. destruct queue; [congruence | reflexivity].
Qed.

(** With a connection and a server taking every statement, a batch whose
    items bind all parameters goes in whole and in order. *)
Lemma execute_each_accepted (srv : server) (sql : string)
    (values_deck : list (gmap string pyval)) : forall db,
  Forall (fun values => unbound sql values = None
                        /\ accept srv sql values = ret tt) values_deck ->
  execute_each srv sql values_deck db
  = (db ++ map (fun values => (sql, values)) values_deck, ret tt).
Proof.
  induction values_deck as [|values rest IH]; intros db Hall; simpl.
  - rewrite app_nil_r. reflexivity.
  - inversion Hall as [|? ? [Hb Ha] Hrest]; subst.
    unfold execute. rewrite Hb, Ha. simpl.
    rewrite IH by assumption. rewrite <- app_assoc. reflexivity.
Qed.

(** C2.  A flush cycle that finds [M > 0] items in the queue takes all of
    them, in the order they were appended, as the one batch it holds while
    it writes, and leaves the queue empty; what the polling tasks append
    while the write is awaited is all the queue holds afterwards.  The
    batch goes to the database in one call of [write_to_db], which on a
    server that takes every statement adds the [M] items in that order. *)
Theorem flush_cycle_takes_all (srv : server) (sql : string)
    (queue arrivals : list (gmap string pyval)) (db : database) :
  queue <> [] ->
  bulk_dump_wake queue = ([], Writing queue) /\
  bulk_dump_cycle srv sql queue arrivals db
  = (arrivals, (write_to_db srv queue sql db).1,
     match (write_to_db srv queue sql db).2 with
     | inl error => Raised error
     | inr _ => Sleeping
     end) /\
  (acquire srv = ret tt ->
   Forall (fun values => unbound sql values = None
                         /\ accept srv sql values = ret tt) queue ->
   bulk_dump_cycle srv sql queue arrivals db
   = (arrivals, db ++ map (fun values => (sql, values)) queue, Sleeping)).
Proof.
  intros Hne.
  assert (bulk_dump_wake queue = ([], Writing queue)) as Hw.
  { rewrite bulk_dump_wake_spec. destruct queue; [congruence | reflexivity]. }
  split; [exact Hw|].
  unfold bulk_dump_cycle. rewrite Hw. unfold bulk_dump_write. split.
  - destruct (write_to_db srv queue sql db) as [db' [error|[]]]; reflexivity.
  - intros Ha Hall. unfold write_to_db. rewrite Ha.
    rewrite execute_each_accepted by assumption. reflexivity.
Qed.

Lemma flush_cycle_takes_all_witness :
  let a := Scenario.item "https://a.example" in
  let b := Scenario.item "https://b.example" in
  let c := Scenario.item "https://c.example" in
  bulk_dump_wake [a; b] = ([], Writing [a; b]) /\
  bulk_dump_cycle Scenario.healthy "INSERT INTO t (url) VALUES (%(url)s) "
    [a; b] [c] []
  = ([c], [("INSERT INTO t (url) VALUES (%(url)s) ", a);
           ("INSERT INTO t (url) VALUES (%(url)s) ", b)], Sleeping).
Proof.
  pose proof (flush_cycle_takes_all Scenario.healthy
                "INSERT INTO t (url) VALUES (%(url)s) "
                [Scenario.item "https://a.example";
                 Scenario.item "https://b.example"]
                [Scenario.item "https://c.example"] []
                ltac:(discriminate)) as (Hw & _ & Hc).
  split; [exact Hw|].
  apply Hc; [reflexivity|]. repeat constructor.
Defined.

(** C9.  A flush cycle that finds the queue empty leaves the queue and the
    database as they are, whatever the server would have answered, and goes
    back to sleep; two drains of an empty queue in a row return two empty
    lists and raise nothing. *)
Theorem empty_flush_does_nothing :
  (forall srv sql arrivals (db : database),
     bulk_dump_wake [] = ([], Sleeping) /\
     bulk_dump_cycle srv sql [] arrivals db = ([], db, Sleeping)) /\
  drain_twice (A := gmap string pyval) [] = ret ([], [], []) /\
  (forall turns, drain (A := gmap string pyval) turns [] [] = ret ([], [])).
Proof.
  split; [|split].
  - intros. split; reflexivity.
  - reflexivity.
  - intros [|turns]; reflexivity.
Qed.

End Flusher.

(** ** The tasks on one event loop *)

Section Pipeline.

Import Aiohttp DBHelper AsyncPoller.

Variable pl : pipeline.

Lemma get_set_dumper (s : stream) (d : dumper) (st : state) :
  get_dumper s (set_dumper s d st) = d.
Proof. destruct s; reflexivity. Qed.

Lemma set_dumper_queues (s : stream) (d : dumper) (st : state) :
  st_queues (set_dumper s d st) = st_queues st.
Proof. destruct s; reflexivity. Qed.

Lemma set_dumper_db (s : stream) (d : dumper) (st : state) :
  st_db (set_dumper s d st) = st_db st.
Proof. destruct s; reflexivity. Qed.

Lemma halted_raised (s : stream) (error : exn) (st : state) :
  get_dumper s st = Raised error -> halted st = true.
Proof.
  unfold halted. destruct s; simpl; intros ->; simpl;
    [reflexivity | apply orb_true_r].
Qed.

Lemma step_halted (st : state) (ev : event) :
  halted st = true -> step pl st ev = None.
Proof. intros H. unfold step. rewrite H. reflexivity. Qed.

(** A fetch touches neither the flushers nor the database and adds one
    record to the queues. *)
Lemma step_fetch (st st' : state) (i : nat) (env : fetch_env) :
  step pl st (Fetch i env) = Some st' ->
  st_result_dumper st' = st_result_dumper st /\
  st_error_dumper st' = st_error_dumper st /\
  st_db st' = st_db st /\
  queued (st_queues st') = S (queued (st_queues st)).
Proof.
  unfold step. destruct (halted st); [discriminate|].
  destruct (pl_polling_tasks pl !! i) as [task|]; simpl; [|discriminate].
  intros [= <-]. simpl. repeat split.
  rewrite website_poll_cycle_queues. apply fetch_page_data_queued.
Qed.

(** While nothing but fetches happens, the queues hold one record for each
    of them. *)
Lemma run_fetches_queued (evs : list event) : forall st st',
  forallb is_fetch evs = true ->
  run pl st evs = Some st' ->
  queued (st_queues st') = (length evs + queued (st_queues st))%nat /\
  st_result_dumper st' = st_result_dumper st /\
  st_error_dumper st' = st_error_dumper st /\
  st_db st' = st_db st.
Proof.
  induction evs as [|ev evs IH]; intros st st' Hf Hr; simpl in *.
  - injection Hr as <-. auto.
  - apply andb_prop in Hf as [Hev Hf].
    destruct (step pl st ev) as [st1|] eqn:Es; simpl in Hr; [|discriminate].
    destruct ev as [i env| |]; try discriminate.
    apply step_fetch in Es as (Hr1 & He1 & Hd1 & Hq1).
    destruct (IH _ _ Hf Hr) as (Hq & Hr2 & He2 & Hd2).
    rewrite Hq, Hq1, Hr2, He2, Hd2. repeat split; auto; lia.
Qed.

(** A flusher that wakes on an empty queue changes nothing. *)
Lemma step_wake_empty (st : state) (s : stream) :
  halted st = false ->
  get_dumper s st = Sleeping ->
  get_queue s (st_queues st) = [] ->
  step pl st (Wake s) = Some st.
Proof.
  intros Hh Hd Hq. unfold step. rewrite Hh, Hd, Hq. simpl.
  destruct st as [[rq eq] rd ed db], s; simpl in *; subst; reflexivity.
Qed.

(** A flusher that wakes on items takes them all and starts to write. *)
Lemma step_wake_items (st : state) (s : stream) :
  halted st = false ->
  get_dumper s st = Sleeping ->
  get_queue s (st_queues st) <> [] ->
  exists st',
    step pl st (Wake s) = Some st' /\
    get_queue s (st_queues st') = [] /\
    get_dumper s st' = Writing (get_queue s (st_queues st)) /\
    st_db st' = st_db st.
Proof.
  intros Hh Hd Hq. unfold step. rewrite Hh, Hd, bulk_dump_wake_spec.
  destruct (get_queue s (st_queues st)) as [|item rest] eqn:E; [congruence|].
  eexists. split; [reflexivity|].
  rewrite get_set_dumper, set_dumper_queues, set_dumper_db.
  destruct s; repeat split.
Qed.

(** C8.  When the write of a batch fails, the flusher is left by the
    exception of the write; the queues are as they were before the write,
    so nothing of the batch is put back; and no task takes a further step,
    so the write is not tried again. *)
Theorem failed_write_loses_batch (st : state) (s : stream)
    (dump_list : list (gmap string pyval)) (srv : server)
    (db' : database) (error : exn) :
  halted st = false ->
  get_dumper s st = Writing dump_list ->
  write_to_db srv dump_list (sql_of pl s) (st_db st) = (db', inl error) ->
  exists st',
    step pl st (WriteDone s srv) = Some st' /\
    st_queues st' = st_queues st /\
    get_dumper s st' = Raised error /\
    st_db st' = db' /\
    (forall ev, step pl st' ev = None) /\
    (forall evs, evs <> [] -> run pl st' evs = None).
Proof.
  intros Hh Hd Hw.
  set (st' := set_dumper s (Raised error)
                {| st_queues := st_queues st;
                   st_result_dumper := st_result_dumper st;
                   st_error_dumper := st_error_dumper st;
                   st_db := db' |}).
  assert (halted st' = true) as Hhalt
    by apply (halted_raised s error), get_set_dumper.
  exists st'. split.
  { unfold step. rewrite Hh, Hd. unfold bulk_dump_write. rewrite Hw.
    reflexivity. }
  split; [unfold st'; rewrite set_dumper_queues; reflexivity|].
  split; [apply get_set_dumper|].
  split; [unfold st'; rewrite set_dumper_db; reflexivity|].
  split.
  - intros ev. apply step_halted, Hhalt.
  - intros [|ev evs] Hne; [congruence|]. simpl.
    rewrite step_halted by exact Hhalt. reflexivity.
Qed.

End Pipeline.

Lemma failed_write_loses_batch_witness :
  let pl := AsyncPoller.poll Scenario.test_db [Scenario.wrong_url] 3 3 in
  let a := Scenario.item "https://a.example" in
  let st := {| AsyncPoller.st_queues := AsyncPoller.no_items;
               AsyncPoller.st_result_dumper := AsyncPoller.Writing [a];
               AsyncPoller.st_error_dumper := AsyncPoller.Sleeping;
               AsyncPoller.st_db := [] |} in
  exists st',
    AsyncPoller.step pl st
      (AsyncPoller.WriteDone AsyncPoller.ResultStream Scenario.unreachable)
    = Some st' /\
    AsyncPoller.st_queues st' = AsyncPoller.no_items /\
    AsyncPoller.get_dumper AsyncPoller.ResultStream st'
    = AsyncPoller.Raised Scenario.operational_error /\
    AsyncPoller.st_db st' = [] /\
    (forall ev, AsyncPoller.step pl st' ev = None) /\
    (forall evs, evs <> [] -> AsyncPoller.run pl st' evs = None).
Proof.
  exact (failed_write_loses_batch
           (AsyncPoller.poll Scenario.test_db [Scenario.wrong_url] 3 3)
           {| AsyncPoller.st_queues := AsyncPoller.no_items;
              AsyncPoller.st_result_dumper :=
                AsyncPoller.Writing [Scenario.item "https://a.example"];
              AsyncPoller.st_error_dumper := AsyncPoller.Sleeping;
              AsyncPoller.st_db := [] |}
           AsyncPoller.ResultStream
           [Scenario.item "https://a.example"] Scenario.unreachable
           [] Scenario.operational_error eq_refl eq_refl eq_refl).
Defined.

(** ** The scenario of the test suite *)

Section TestScenario.

Import Aiohttp DBHelper AsyncPoller Scenario.

(** Three fetches of python.org and three of the unknown host leave three
    results, each with the pattern found, and three errors; both batches
    bind to their statements. *)
Example test_data_fetch :
  let q := fetch_all three_and_three no_items in
  map (fun r => (r !! "regex_found", r !! "status_code")) (result_queue q)
  = replicate 3 (Some (VBool true), Some (VInt 200)) /\
  map (fun r => (r !! "url", r !! "duration")) (error_queue q)
  = replicate 3 (Some (VStr "https://blablabla.org"), None) /\
  (write_to_db healthy (result_queue q) (insert_result_sql test_db) []).2
  = ret tt /\
  (write_to_db healthy (error_queue q) (insert_error_sql test_db) []).2
  = ret tt.
Proof. repeat split; vm_compute; reflexivity. Qed.

(** A fetch, a flusher waking, a second fetch while the write is awaited,
    and the end of the write: the first record is in the database and the
    second waits in the queue. *)
Example flusher_between_fetches :
  let pl := poll test_db [correct_url; wrong_url] 3 3 in
  let env := at_noon internet in
  exists st first second,
    run pl init [Fetch 0 env; Wake ResultStream; Fetch 0 env;
                 WriteDone ResultStream healthy] = Some st /\
    st_db st = [(insert_result_sql test_db, first)] /\
    st_queues st = {| result_queue := [second]; error_queue := [] |} /\
    st_result_dumper st = Sleeping.
Proof. do 3 eexists. vm_compute. repeat split. Qed.

(** A body that is not UTF-8 is a result without a pattern and an error
    with one. *)
Example undecodable_body :
  let env := at_noon binary_net in
  let without := fetch_page_data session_timeout_3 "https://python.org" None 3
                   env no_items in
  let with_pattern := fetch_page_data session_timeout_3 "https://python.org"
                   (Some (Re.compile python_is_a_programming true)) 3
                   env no_items in
  length (result_queue without.1) = 1%nat /\
  length (error_queue without.1) = 0%nat /\
  length (result_queue with_pattern.1) = 0%nat /\
  length (error_queue with_pattern.1) = 1%nat.
Proof. vm_compute. repeat split. Qed.

End TestScenario.

(** * Further properties of the code *)

(** ** The records of a fetch *)

Section Records.

Import Aiohttp DBHelper AsyncPoller.

Lemma success_record_dom (url : string) (env : fetch_env)
    (response : Response) (found : pyval) :
  dom (<["regex_found" := found]> (seen_record url env response)) =
  {["url"; "timestamp"; "duration"; "status_code"; "regex_found"]}.
Proof. rewrite dom_insert_L, seen_record_dom. set_solver. Qed.

Lemma failed_record_dom (error : exn) (d : gmap string pyval) :
  dom (failed_record error d) = {["error"]} ∪ dom d.
Proof. unfold failed_record. apply dom_insert_L. Qed.

(** The keys of a record follow from what the fetch met.  When the
    request fails the record put on the error queue has exactly [url],
    [timestamp] and [error]; when the remote side answers and the decoding
    fails it has these and [duration] and [status_code]; when the fetch
    succeeds the record put on the result queue has exactly [url],
    [timestamp], [duration], [status_code] and [regex_found]. *)
Theorem record_keys session url regex timeout env (q : queues) :
  (forall error,
     net env url true (request_timeout session (Some timeout)) = inl error ->
     exists r,
       (fetch_page_data session url regex timeout env q).1 = append_error q r
       /\ dom r = {["url"; "timestamp"; "error"]}) /\
  (forall response,
     net env url true (request_timeout session (Some timeout)) = inr response ->
     regex <> None -> Utf8.decode_points (content response) = None ->
     exists r,
       (fetch_page_data session url regex timeout env q).1 = append_error q r
       /\ dom r
          = {["url"; "timestamp"; "duration"; "status_code"; "error"]}) /\
  (forall response,
     net env url true (request_timeout session (Some timeout)) = inr response ->
     regex = None \/ is_Some (Utf8.decode_points (content response)) ->
     exists r,
       (fetch_page_data session url regex timeout env q).1 = append_result q r
       /\ dom r
          = {["url"; "timestamp"; "duration"; "status_code"; "regex_found"]}).
Proof.
  pose proof (fetch_page_data_cases session url regex timeout env q) as H.
  split; [|split].
  - intros error Hn. rewrite Hn in H. rewrite H. eexists.
    split; [reflexivity|].
    rewrite failed_record_dom, fresh_record_dom. set_solver.
  - intros response Hn Hr Hd. destruct regex as [p|]; [|congruence].
    rewrite Hn, (parse_web_page_undecodable p _ Hd) in H. rewrite H. eexists.
    split; [reflexivity|].
    rewrite failed_record_dom, seen_record_dom. set_solver.
  - intros response Hn Hok.
    destruct (parse_web_page_decodable regex (content response) Hok)
      as [found Hp].
    rewrite Hn, Hp in H. rewrite H. eexists.
    split; [reflexivity|]. apply success_record_dom.
Qed.

Lemma record_keys_witness :
  exists r,
    (fetch_page_data Scenario.session_timeout_3 "https://blablabla.org"
       None 5 (Scenario.at_noon Scenario.internet) no_items).1
    = append_error no_items r /\
    dom r = {["url"; "timestamp"; "error"]}.
Proof.
  exact (proj1 (record_keys Scenario.session_timeout_3 "https://blablabla.org"
                  None 5 (Scenario.at_noon Scenario.internet) no_items)
           Scenario.cannot_connect eq_refl).
Defined.

Lemma error_record_parameters (error : exn) (d : gmap string pyval) :
  is_Some (d !! "url") -> is_Some (d !! "timestamp") ->
  Forall (fun name => is_Some (failed_record error d !! name))
         (parameters ERROR_SQL).
Proof.
  intros [u Hu] [t Ht]. rewrite ERROR_SQL_parameters.
  repeat constructor.
  - rewrite failed_record_other by discriminate. eauto.
  - rewrite failed_record_error. eauto.
  - rewrite failed_record_other by discriminate. eauto.
Qed.

Lemma failure_binds session url regex timeout env (q : queues)
    (r : gmap string pyval) (db : DBHelper.t) :
  no_percent (error_table db) = true ->
  (fetch_page_data session url regex timeout env q).1 = append_error q r ->
  unbound (insert_error_sql db) r = None.
Proof.
  intros Hdb Hq. apply unbound_none.
  rewrite insert_error_sql_parameters by exact Hdb.
  apply fetch_failure_inv in Hq
    as [(error & _ & ->) | (response & error & _ & _ & ->)];
    apply error_record_parameters; eexists; reflexivity.
Qed.

Lemma success_binds session url regex timeout env (q : queues)
    (r : gmap string pyval) (db : DBHelper.t) :
  no_percent (result_table db) = true ->
  (fetch_page_data session url regex timeout env q).1 = append_result q r ->
  unbound (insert_result_sql db) r = None.
Proof.
  intros Hdb Hq. apply unbound_none.
  rewrite insert_result_sql_parameters by exact Hdb.
  apply fetch_success_inv in Hq as (response & found & _ & _ & ->).
  rewrite RESULT_SQL_parameters. repeat constructor; eexists; reflexivity.
Qed.

(** Every record a failed fetch puts on the error queue, from a failed
    request as from a failed decoding, has an entry for each parameter of
    the error statement, so on a server that takes the statement it becomes
    one row of the error table. *)
Theorem error_record_binds session url regex timeout env (q : queues)
    (r : gmap string pyval) (db : DBHelper.t) (srv : server)
    (rows_before : database) :
  no_percent (error_table db) = true ->
  (fetch_page_data session url regex timeout env q).1 = append_error q r ->
  accept srv (insert_error_sql db) r = ret tt ->
  Forall (fun name => is_Some (r !! name)) (parameters ERROR_SQL) /\
  execute srv (insert_error_sql db) r rows_before
  = (rows_before ++ [(insert_error_sql db, r)], ret tt).
Proof.
  intros Hdb Hq Ha. split.
  - apply fetch_failure_inv in Hq
      as [(error & _ & ->) | (response & error & _ & _ & ->)];
      apply error_record_parameters; eexists; reflexivity.
  - unfold execute. rewrite (failure_binds _ _ _ _ _ _ _ _ Hdb Hq), Ha.
    reflexivity.
Qed.

Lemma error_record_binds_witness :
  let r := failed_record Scenario.cannot_connect
             (fresh_record "https://blablabla.org"
                (Scenario.at_noon Scenario.internet)) in
  execute Scenario.healthy (insert_error_sql Scenario.test_db) r []
  = ([(insert_error_sql Scenario.test_db, r)], ret tt).
Proof.
  exact (proj2 (error_record_binds Scenario.session_timeout_3
                  "https://blablabla.org" None 5
                  (Scenario.at_noon Scenario.internet) no_items
                  _ Scenario.test_db Scenario.healthy []
                  eq_refl eq_refl eq_refl)).
Defined.

(** The value a successful fetch returns is the duration it has put in the
    record.  After a failed decoding the record keeps the duration taken
    when the body was read, while the value returned is taken later, in the
    handler. *)
Theorem returned_duration session url regex timeout env (q : queues)
    (r : gmap string pyval) :
  let out := fetch_page_data session url regex timeout env q in
  (out.1 = append_result q r -> r !! "duration" = Some (VFloat out.2)) /\
  (out.1 = append_error q r ->
   out.2 = total_seconds (now_handler env - now_start env) /\
   (is_Some (r !! "duration") ->
    r !! "duration"
    = Some (VFloat (total_seconds (now_read env - now_start env))))).
Proof.
  pose proof (fetch_page_data_cases session url regex timeout env q) as H.
  split; intros Hq.
  - destruct (fetch_success_inv _ _ _ _ _ _ _ Hq)
      as (response & found & Hn & Hp & ->).
    rewrite Hn, Hp in H. rewrite H. reflexivity.
  - destruct (fetch_failure_inv _ _ _ _ _ _ _ Hq)
      as [(error & Hn & ->) | (response & error & Hn & Hp & ->)].
    + rewrite Hn in H. rewrite H. split; [reflexivity|].
      intros [v Hv]. discriminate.
    + rewrite Hn, Hp in H. rewrite H. split; [reflexivity|].
      intros _. reflexivity.
Qed.

Lemma returned_duration_witness :
  let out := fetch_page_data Scenario.session_timeout_3 "https://python.org"
               (Some (Re.compile Scenario.python_is_a_programming true)) 3
               (Scenario.at_noon Scenario.binary_net) no_items in
  exists r, out.1 = append_error no_items r /\
            out.2 = 0.5%float /\
            r !! "duration" = Some (VFloat 0.25).
Proof.
  eexists. split; [reflexivity|].
  pose proof (proj2 (returned_duration Scenario.session_timeout_3
                       "https://python.org"
                       (Some (Re.compile Scenario.python_is_a_programming true))
                       3 (Scenario.at_noon Scenario.binary_net) no_items _)
                eq_refl) as [Hd Hr].
  split; [exact Hd|]. apply Hr. eexists. reflexivity.
Defined.

End Records.

(** ** Which stream a fetch ends on *)

Section Streams.

Import Aiohttp AsyncPoller.

Lemma parse_web_page_ok_iff (regex : option Re.Pattern) (data : list byte) :
  (exists found, parse_web_page regex data = inr found) <->
  regex = None \/ is_Some (Utf8.decode_points data).
Proof.
  destruct regex as [p|]; simpl.
  - unfold Utf8.decode.
    destruct (Utf8.decode_points data) as [text|]; simpl.
    + split; [intros _; right; eauto|]. intros _.
      destruct (Re.search p text); eauto.
    + split.
      * intros [found Hf]. discriminate.
      * intros [Hn | [text Ht]]; discriminate.
  - split; [auto | eauto].
Qed.

(** Once the remote side has answered, the HTTP status plays no part in
    where the record goes: the fetch ends on the result queue, with the
    status as it came, exactly when there is no pattern or the body is
    valid UTF-8, and on the error queue otherwise. *)
Theorem answered_fetch_stream session url regex timeout env (q : queues)
    (response : Response) :
  net env url true (request_timeout session (Some timeout)) = inr response ->
  let q' := (fetch_page_data session url regex timeout env q).1 in
  ((exists r, q' = append_result q r /\
              r !! "status_code" = Some (VInt (status response)))
   <-> regex = None \/ is_Some (Utf8.decode_points (content response))) /\
  ((exists r, q' = append_error q r)
   <-> regex <> None /\ Utf8.decode_points (content response) = None).
Proof.
  intros Hn. simpl.
  pose proof (fetch_page_data_cases session url regex timeout env q) as H.
  pose proof (parse_web_page_ok_iff regex (content response)) as Hok.
  rewrite Hn in H.
  destruct (parse_web_page regex (content response)) as [error|found];
    rewrite H; simpl; split; split.
  - intros (r & Hr & _). symmetry in Hr.
    apply append_result_not_error in Hr as [].
  - intros Hc. apply Hok in Hc as [found Hf]. discriminate.
  - intros _. split.
    + intros ->. destruct (proj2 Hok (or_introl eq_refl)). discriminate.
    + destruct (Utf8.decode_points (content response)) eqn:Ed; [|reflexivity].
      destruct (proj2 Hok (or_intror (ex_intro _ _ eq_refl))). discriminate.
  - intros _. eauto.
  - intros _. apply Hok. eauto.
  - intros _. eexists. split; [reflexivity|]. reflexivity.
  - intros [r Hr]. apply append_result_not_error in Hr as [].
  - intros [Hr Hd]. destruct (proj1 Hok (ex_intro _ _ eq_refl)) as [?|[? ?]];
      congruence.
Qed.

Lemma answered_fetch_stream_witness :
  let env := Scenario.at_noon Scenario.binary_net in
  (exists r,
     (fetch_page_data Scenario.session_timeout_3 "https://python.org" None 3
        env no_items).1 = append_result no_items r /\
     r !! "status_code" = Some (VInt 200))
  <-> None = @None Re.Pattern \/ is_Some (Utf8.decode_points [xff; xfe]).
Proof.
  exact (proj1 (answered_fetch_stream Scenario.session_timeout_3
                  "https://python.org" None 3
                  (Scenario.at_noon Scenario.binary_net) no_items
                  {| status := 200; content := [xff; xfe] |} eq_refl)).
Defined.

Lemma decode_points_ascii (data : list byte) :
  is_ascii data = true ->
  Utf8.decode_points data = Some (map Byte.to_N data).
Proof.
  induction data as [|b rest IH]; intros Ha; [reflexivity|].
  simpl in Ha. apply andb_prop in Ha as [Hb Hrest].
  cbn [Utf8.decode_points map]. cbv zeta.
  change (0x80)%N with 128%N. rewrite Hb, (IH Hrest). reflexivity.
Qed.

(** On a body of ASCII bytes [parse_web_page] never raises: without a
    pattern it returns [None], with one it returns whether the pattern
    occurs in the text made of the same bytes. *)
Theorem parse_web_page_ascii (regex : option Re.Pattern) (data : list byte) :
  is_ascii data = true ->
  match regex with
  | None => parse_web_page regex data = ret VNone
  | Some p =>
    exists b, parse_web_page regex data = ret (VBool b) /\
              (b = true <-> Re.occurs_in p (map Byte.to_N data))
  end.
Proof.
  intros Ha. destruct regex as [p|]; [|reflexivity].
  unfold parse_web_page, Utf8.decode.
  rewrite (decode_points_ascii data Ha). simpl.
  pose proof (search_occurs p (map Byte.to_N data)) as Hs.
  destruct (Re.search p (map Byte.to_N data)) as [pos|].
  - exists true. split; [reflexivity|]. split; [|reflexivity].
    intros _. apply Hs. eauto.
  - exists false. split; [reflexivity|]. split; [discriminate|].
    intros Ho. apply Hs in Ho as [? ?]. discriminate.
Qed.

Lemma parse_web_page_ascii_witness :
  exists b,
    parse_web_page (Some (Re.compile Scenario.python_is_a_programming true))
      (Utf8.ascii_bytes "Python is a programming language")
    = ret (VBool b) /\
    (b = true <->
     Re.occurs_in (Re.compile Scenario.python_is_a_programming true)
       (map Byte.to_N (Utf8.ascii_bytes "Python is a programming language"))).
Proof.
  exact (parse_web_page_ascii
           (Some (Re.compile Scenario.python_is_a_programming true))
           (Utf8.ascii_bytes "Python is a programming language") eq_refl).
Defined.

End Streams.

(** ** Order on the queues *)

Section Order.

Import Aiohttp AsyncPoller.

(** What a fetch appends does not depend on what is queued already. *)
Lemma website_poll_cycle_appends (task : poll_task) (env : fetch_env)
    (q : queues) :
  result_queue (website_poll_cycle task env q).1
  = result_queue q ++ result_queue (outcome (task, env)) /\
  error_queue (website_poll_cycle task env q).1
  = error_queue q ++ error_queue (outcome (task, env)).
Proof.
  unfold outcome. simpl. rewrite !website_poll_cycle_queues.
  pose proof (fetch_page_data_cases (task_session task) (task_url task)
                (task_regex task) (task_timeout task) env q) as H.
  pose proof (fetch_page_data_cases (task_session task) (task_url task)
                (task_regex task) (task_timeout task) env no_items) as H0.
  destruct (net env (task_url task) true _) as [error|response].
  - rewrite H, H0. simpl. rewrite app_nil_r. auto.
  - destruct (parse_web_page (task_regex task) (content response));
      rewrite H, H0; simpl; rewrite app_nil_r; auto.
Qed.

(** After a run of fetches each queue is what it was, followed by the
    records of the fetches that ended on it, in the order of the fetches;
    nothing queued before is moved or dropped. *)
Theorem fetch_all_in_order (attempts : list (poll_task * fetch_env))
    (q : queues) :
  result_queue (fetch_all attempts q)
  = result_queue q ++ flat_map (fun a => result_queue (outcome a)) attempts /\
  error_queue (fetch_all attempts q)
  = error_queue q ++ flat_map (fun a => error_queue (outcome a)) attempts.
Proof.
  revert q. induction attempts as [|[task env] rest IH]; intros q; simpl.
  - rewrite !app_nil_r. auto.
  - destruct (IH (website_poll_cycle task env q).1) as [Hr He].
    destruct (website_poll_cycle_appends task env q) as [Hr1 He1].
    rewrite Hr, He, Hr1, He1, <- !app_assoc. auto.
Qed.

End Order.

(** ** Writing a batch *)

Section Writing.

Import DBHelper AsyncPoller.

Lemma execute_keeps (srv : server) (sql : string) (values : gmap string pyval)
    (db : database) :
  execute srv sql values db = (db ++ [(sql, values)], ret tt) \/
  exists error, execute srv sql values db = (db, raise error).
Proof.
  unfold execute. destruct (unbound sql values); [eauto|].
  destruct (accept srv sql values) as [error|[]]; eauto.
Qed.

Lemma execute_each_grows (srv : server) (sql : string)
    (values_deck : list (gmap string pyval)) : forall db,
  exists k,
    (k <= length values_deck)%nat /\
    (execute_each srv sql values_deck db).1
    = db ++ rows sql (take k values_deck) /\
    ((execute_each srv sql values_deck db).2 = ret tt ->
     k = length values_deck).
Proof.
  induction values_deck as [|values rest IH]; intros db; simpl.
  - exists 0%nat. simpl. rewrite app_nil_r. auto.
  - destruct (execute_keeps srv sql values db) as [He | [error He]];
      rewrite He.
    + destruct (IH (db ++ [(sql, values)])) as (k & Hk & Hdb & Hok).
      exists (S k). simpl. rewrite Hdb, <- app_assoc. simpl.
      split; [lia|]. split; [reflexivity|]. intros H. f_equal. auto.
    + exists 0%nat. simpl. rewrite app_nil_r.
      split; [lia|]. split; [reflexivity|]. discriminate.
Qed.

Lemma write_to_db_grows (srv : server) (sql : string)
    (values_deck : list (gmap string pyval)) (db : database) :
  exists k,
    (k <= length values_deck)%nat /\
    (write_to_db srv values_deck sql db).1 = db ++ rows sql (take k values_deck)
    /\ ((write_to_db srv values_deck sql db).2 = ret tt ->
        k = length values_deck).
Proof.
  unfold write_to_db. destruct (acquire srv) as [error|[]].
  - exists 0%nat. simpl. rewrite app_nil_r. repeat split; [lia|discriminate].
  - destruct (execute_each_grows srv sql values_deck db)
      as (k & Hk & Hdb & Hok). eauto.
Qed.

(** Whatever the server does, [write_to_db] leaves every earlier row in
    place and adds, in the order of the batch, the rows of the first [k]
    items for some [k]; all of them when it returns, and none when no
    connection is to be had. *)
Theorem write_to_db_adds_a_prefix (srv : server) (sql : string)
    (values_deck : list (gmap string pyval)) (db : database) :
  (exists k,
     (k <= length values_deck)%nat /\
     (write_to_db srv values_deck sql db).1
     = db ++ rows sql (take k values_deck) /\
     ((write_to_db srv values_deck sql db).2 = ret tt ->
      (write_to_db srv values_deck sql db).1 = db ++ rows sql values_deck)) /\
  (forall error, acquire srv = raise error ->
     write_to_db srv values_deck sql db = (db, raise error)).
Proof.
  split.
  - destruct (write_to_db_grows srv sql values_deck db) as (k & Hk & Hdb & Hok).
    exists k. repeat split; auto.
    intros Hr. rewrite Hdb, (Hok Hr), firstn_all. reflexivity.
  - intros error Ha. unfold write_to_db. rewrite Ha. reflexivity.
Qed.

Lemma write_to_db_adds_a_prefix_witness :
  write_to_db Scenario.unreachable [Scenario.item "https://a.example"]
    "INSERT INTO t (url) VALUES (%(url)s) " []
  = ([], raise Scenario.operational_error).
Proof.
  exact (proj2 (write_to_db_adds_a_prefix Scenario.unreachable
                  "INSERT INTO t (url) VALUES (%(url)s) "
                  [Scenario.item "https://a.example"] [])
           Scenario.operational_error eq_refl).
Defined.

(** When the item after [done] is the first to raise, [write_to_db] has
    written the items of [done], raises that exception and sends nothing of
    what follows: the rows written before stay. *)
Theorem write_to_db_stops_at_failure (srv : server) (sql : string)
    (done later : list (gmap string pyval)) (bad : gmap string pyval)
    (db : database) (error : exn) :
  acquire srv = ret tt ->
  Forall (fun values => unbound sql values = None
                        /\ accept srv sql values = ret tt) done ->
  (execute srv sql bad (db ++ rows sql done)).2 = raise error ->
  write_to_db srv (done ++ bad :: later) sql db
  = (db ++ rows sql done, raise error).
Proof.
  intros Ha Hdone Hbad. unfold write_to_db. rewrite Ha.
  revert db Hbad. induction Hdone as [|values done [Hb Hv] _ IH];
    intros db Hbad; simpl in *.
  - rewrite app_nil_r in *.
    destruct (execute_keeps srv sql bad db) as [He | [error' He]];
      rewrite He in *; simpl in *; [discriminate|].
    injection Hbad as ->. reflexivity.
  - unfold execute at 1. rewrite Hb, Hv. simpl.
    rewrite IH.
    + rewrite <- app_assoc. reflexivity.
    + rewrite <- app_assoc. exact Hbad.
Qed.

Lemma write_to_db_stops_at_failure_witness :
  let sql := "INSERT INTO t (url, error) VALUES (%(url)s, %(error)s) " in
  let a := failed_record Scenario.cannot_connect (Scenario.item "https://a") in
  let b := Scenario.item "https://b" in
  write_to_db Scenario.healthy ([a] ++ b :: [a]) sql []
  = ([] ++ rows sql [a], raise (key_error "error")).
Proof.
  apply write_to_db_stops_at_failure.
  - reflexivity.
  - repeat constructor.
  - reflexivity.
Defined.

Lemma execute_values_each (srv : server) (sql : string)
    (values_deck : list (gmap string pyval)) : forall db,
  execute_values srv sql values_deck db = execute_each srv sql values_deck db.
Proof.
  induction values_deck as [|values rest IH]; intros db; simpl; [reflexivity|].
  destruct (execute srv sql values db) as [db' [error|[]]]; auto.
Qed.

(** [insert_many] returns or raises as [write_to_db] does on the same
    batch and server.  When they return, both have added the whole batch in
    order; when [insert_many] raises, the database is as it was before the
    call. *)
Theorem insert_many_all_or_nothing (srv : server) (sql : string)
    (values_deck : list (gmap string pyval)) (db : database) :
  (insert_many srv sql values_deck db).2
  = (write_to_db srv values_deck sql db).2 /\
  ((insert_many srv sql values_deck db).2 = ret tt ->
   (insert_many srv sql values_deck db).1 = db ++ rows sql values_deck /\
   (write_to_db srv values_deck sql db).1 = db ++ rows sql values_deck) /\
  (forall error, (insert_many srv sql values_deck db).2 = raise error ->
                 (insert_many srv sql values_deck db).1 = db).
Proof.
  pose proof (write_to_db_grows srv sql values_deck db) as (k & Hk & Hdb & Hok).
  unfold insert_many, write_to_db in *.
  destruct (acquire srv) as [error|[]]; simpl.
  - split; [reflexivity|]. split; [discriminate|]. reflexivity.
  - rewrite execute_values_each.
    destruct (execute_each srv sql values_deck db) as [db' [error|[]]];
      simpl in *.
    + split; [reflexivity|]. split; [discriminate|]. reflexivity.
    + rewrite Hdb, (Hok eq_refl), firstn_all.
      split; [reflexivity|]. split; [auto|]. discriminate.
Qed.

Lemma insert_many_all_or_nothing_witness :
  let sql := "INSERT INTO t (url, error) VALUES (%(url)s, %(error)s) " in
  let a := failed_record Scenario.cannot_connect (Scenario.item "https://a") in
  let b := Scenario.item "https://b" in
  (insert_many Scenario.healthy sql [a; b] []).1 = [] /\
  (write_to_db Scenario.healthy [a; b] sql []).1 = [(sql, a)].
Proof.
  split; [|reflexivity].
  apply (proj2 (proj2 (insert_many_all_or_nothing Scenario.healthy
           "INSERT INTO t (url, error) VALUES (%(url)s, %(error)s) "
           [failed_record Scenario.cannot_connect (Scenario.item "https://a");
            Scenario.item "https://b"] [])) (key_error "error")).
  reflexivity.
Defined.

End Writing.

(** ** What a run of the pipeline keeps *)

Section Conservation.

Import Aiohttp DBHelper AsyncPoller.

Variable pl : pipeline.

Lemma step_running (st st' : state) (ev : event) :
  step pl st ev = Some st' -> halted st = false.
Proof. unfold step. destruct (halted st); [discriminate | reflexivity]. Qed.

Lemma queued_set_queue (s : stream) (items : list (gmap string pyval))
    (q : queues) :
  (queued (set_queue s items q) + length (get_queue s q))%nat
  = (queued q + length items)%nat.
Proof. destruct s, q; unfold queued; simpl; lia. Qed.

(** A flusher that wakes moves what is queued into its hands. *)
Lemma step_wake (st st' : state) (s : stream) :
  step pl st (Wake s) = Some st' ->
  get_dumper s st = Sleeping /\
  st_db st' = st_db st /\
  get_queue s (st_queues st') = [] /\
  held (get_dumper s st') = get_queue s (st_queues st) /\
  is_raised (get_dumper s st') = false /\
  get_queue (other s) (st_queues st') = get_queue (other s) (st_queues st) /\
  get_dumper (other s) st' = get_dumper (other s) st.
Proof.
  unfold step. destruct (halted st); [discriminate|].
  destruct (get_dumper s st) eqn:Ed; try discriminate.
  rewrite bulk_dump_wake_spec.
  destruct (get_queue s (st_queues st)) as [|item rest] eqn:Eq;
    intros [= <-]; destruct s, st as [[rq eq] rd ed db];
    simpl in *; subst; repeat split.
Qed.

(** The end of a write changes the database and the flusher, nothing
    else. *)
Lemma step_write (st st' : state) (s : stream) (srv : server) :
  step pl st (WriteDone s srv) = Some st' ->
  get_dumper s st = Writing (held (get_dumper s st)) /\
  st_queues st' = st_queues st /\
  st_db st'
  = (write_to_db srv (held (get_dumper s st)) (sql_of pl s) (st_db st)).1 /\
  held (get_dumper s st') = [] /\
  (is_raised (get_dumper s st') = false <->
   (write_to_db srv (held (get_dumper s st)) (sql_of pl s) (st_db st)).2
   = ret tt) /\
  get_dumper (other s) st' = get_dumper (other s) st.
Proof.
  unfold step. destruct (halted st); [discriminate|].
  destruct (get_dumper s st) as [|dump_list|] eqn:Ed; try discriminate.
  unfold bulk_dump_write. simpl.
  destruct (write_to_db srv dump_list (sql_of pl s) (st_db st))
    as [db' [error|[]]]; intros [= <-];
    destruct s, st as [q rd ed db]; simpl in *; subst;
    repeat split; try discriminate; auto.
Qed.

(** A fetch adds what it appends behind the queue of each stream and
    touches nothing else. *)
Lemma step_fetch_kept (st st' : state) (i : nat) (env : fetch_env)
    (s : stream) :
  step pl st (Fetch i env) = Some st' ->
  st_db st' = st_db st /\
  get_dumper s st' = get_dumper s st /\
  get_queue s (st_queues st')
  = get_queue s (st_queues st) ++ fetched pl s [Fetch i env].
Proof.
  unfold step, fetched. destruct (halted st); [discriminate|]. simpl.
  destruct (pl_polling_tasks pl !! i) as [task|]; simpl; [|discriminate].
  intros [= <-]. simpl.
  destruct (website_poll_cycle_appends task env (st_queues st)) as [Hr He].
  rewrite app_nil_r. destruct s; simpl; auto.
Qed.

Lemma fetched_cons (s : stream) (ev : event) (evs : list event) :
  fetched pl s (ev :: evs) = fetched pl s [ev] ++ fetched pl s evs.
Proof. unfold fetched. simpl. rewrite app_nil_r. reflexivity. Qed.

Lemma written_app (s : stream) (db1 db2 : database) :
  written pl s (db1 ++ db2) = written pl s db1 ++ written pl s db2.
Proof. unfold written. rewrite filter_app, map_app. reflexivity. Qed.

Lemma written_rows_same (s : stream) (items : list (gmap string pyval)) :
  written pl s (rows (sql_of pl s) items) = items.
Proof.
  unfold written, rows. induction items as [|item items IH]; [reflexivity|].
  simpl. rewrite filter_cons. simpl.
  destruct (decide (sql_of pl s = sql_of pl s)); [|congruence].
  simpl. f_equal. exact IH.
Qed.

Lemma written_rows_other (s : stream) (items : list (gmap string pyval)) :
  sql_of pl s <> sql_of pl (other s) ->
  written pl (other s) (rows (sql_of pl s) items) = [].
Proof.
  intros Hne. unfold written, rows.
  induction items as [|item items IH]; [reflexivity|].
  simpl. rewrite filter_cons. simpl.
  destruct (decide (sql_of pl s = sql_of pl (other s))); [congruence|].
  exact IH.
Qed.

Lemma kept_other (s s' : stream) : s' = s \/ s' = other s.
Proof. destruct s, s'; auto. Qed.

Hypothesis statements_differ :
  sql_of pl ResultStream <> sql_of pl ErrorStream.

Lemma sql_of_other (s : stream) : sql_of pl s <> sql_of pl (other s).
Proof.
  destruct s; simpl; [exact statements_differ|].
  intros Heq. apply statements_differ. symmetry. exact Heq.
Qed.

(** What a step leaves of a stream is what was there and what the step
    fetched, with nothing added, doubled or moved out of order. *)
Lemma step_kept (st st' : state) (ev : event) (s : stream) :
  step pl st ev = Some st' ->
  kept pl s st' `sublist_of` kept pl s st ++ fetched pl s [ev].
Proof.
  intros Hs. unfold kept. destruct ev as [i env|s0|s0 srv].
  - apply (step_fetch_kept _ _ _ _ s) in Hs as (-> & -> & ->).
    rewrite <- !app_assoc. reflexivity.
  - apply step_wake in Hs as (Hsl & -> & Hq & Hh & _ & Hoq & Hod).
    simpl. rewrite app_nil_r.
    destruct (kept_other s0 s) as [-> | ->].
    + rewrite Hq, Hh, Hsl. simpl. rewrite app_nil_r. reflexivity.
    + rewrite Hoq, Hod. reflexivity.
  - apply step_write in Hs as (Hw & -> & -> & Hh & _ & Hod).
    simpl. rewrite app_nil_r.
    destruct (write_to_db_grows srv (sql_of pl s0) (held (get_dumper s0 st))
                (st_db st)) as (k & _ & -> & _).
    rewrite written_app.
    destruct (kept_other s0 s) as [-> | ->].
    + rewrite written_rows_same, Hh. simpl. rewrite <- app_assoc.
      apply sublist_app; [reflexivity|].
      apply sublist_app; [apply sublist_take | reflexivity].
    + rewrite written_rows_other by apply sql_of_other.
      rewrite Hod, app_nil_r. reflexivity.
Qed.

Lemma run_kept (evs : list event) (s : stream) : forall st st',
  run pl st evs = Some st' ->
  kept pl s st' `sublist_of` kept pl s st ++ fetched pl s evs.
Proof.
  induction evs as [|ev evs IH]; intros st st' Hr; simpl in Hr.
  - injection Hr as <-. unfold fetched. simpl. rewrite app_nil_r. reflexivity.
  - destruct (step pl st ev) as [st1|] eqn:Es; simpl in Hr; [|discriminate].
    rewrite fetched_cons, app_assoc.
    etrans; [apply (IH _ _ Hr)|].
    apply sublist_app; [|reflexivity]. apply step_kept, Es.
Qed.

(** A step whose write, if it is one, is taken by the server loses
    nothing either. *)
Lemma step_kept_all (st st' : state) (ev : event) (s : stream) :
  sound pl st ->
  match ev with WriteDone _ srv => accepting srv | _ => True end ->
  step pl st ev = Some st' ->
  kept pl s st' = kept pl s st ++ fetched pl s [ev].
Proof.
  intros [_ Hb] Hev Hs. unfold kept. destruct ev as [i env|s0|s0 srv].
  - apply (step_fetch_kept _ _ _ _ s) in Hs as (-> & -> & ->).
    rewrite <- !app_assoc. reflexivity.
  - apply step_wake in Hs as (Hsl & -> & Hq & Hh & _ & Hoq & Hod).
    simpl. rewrite app_nil_r.
    destruct (kept_other s0 s) as [-> | ->].
    + rewrite Hq, Hh, Hsl. simpl. rewrite app_nil_r. reflexivity.
    + rewrite Hoq, Hod. reflexivity.
  - apply step_write in Hs as (Hw & -> & -> & Hh & _ & Hod).
    simpl. rewrite app_nil_r.
    destruct Hev as [Ha Hacc].
    assert (write_to_db srv (held (get_dumper s0 st)) (sql_of pl s0) (st_db st)
            = (st_db st ++ rows (sql_of pl s0) (held (get_dumper s0 st)),
               ret tt)) as ->.
    { unfold write_to_db. rewrite Ha. apply execute_each_accepted.
      eapply Forall_impl; [exact (proj2 (Hb s0))|].
      intros values Hv. split; [exact Hv | apply Hacc]. }
    simpl. rewrite written_app.
    destruct (kept_other s0 s) as [-> | ->].
    + rewrite written_rows_same, Hh. simpl. rewrite <- app_assoc.
      reflexivity.
    + rewrite written_rows_other by apply sql_of_other.
      rewrite Hod, app_nil_r. reflexivity.
Qed.

End Conservation.

Section Healthy.

Import Aiohttp DBHelper AsyncPoller.

Variables (db : DBHelper.t) (urls : list entry) (web_timeout dump_interval : Z).
Hypothesis result_table_plain : no_percent (result_table db) = true.
Hypothesis error_table_plain : no_percent (error_table db) = true.

Local Abbreviation pl := (poll db urls web_timeout dump_interval).
Local Abbreviation binds_all := (AsyncPoller.binds_all pl).
Local Abbreviation sound := (AsyncPoller.sound pl).

(** The two statements name different parameters, so they differ. *)
Lemma poll_statements_differ :
  sql_of pl ResultStream <> sql_of pl ErrorStream.
Proof.
  simpl. intros Heq. apply (f_equal parameters) in Heq.
  rewrite insert_result_sql_parameters, insert_error_sql_parameters in Heq
    by assumption.
  rewrite RESULT_SQL_parameters, ERROR_SQL_parameters in Heq. discriminate.
Qed.

Lemma sound_init : sound init.
Proof. split; [reflexivity|]. intros []; split; constructor. Qed.

Lemma step_fetch_sound (st st' : state) (i : nat) (env : fetch_env) :
  sound st -> step pl st (Fetch i env) = Some st' -> sound st'.
Proof.
  intros [Hh Hb] Hs. pose proof Hs as Hs'.
  apply step_fetch in Hs' as (Hr & He & _).
  split; [unfold halted; rewrite Hr, He; exact Hh|].
  unfold step in Hs. rewrite Hh in Hs.
  destruct (pl_polling_tasks pl !! i) as [task|]; simpl in Hs; [|discriminate].
  injection Hs as <-. rewrite website_poll_cycle_queues.
  destruct (fetch_page_data_routes (task_session task) (task_url task)
              (task_regex task) (task_timeout task) env (st_queues st))
    as (r & [[Hrq Heq] | [Hrq Heq]]).
  - assert ((fetch_page_data (task_session task) (task_url task)
               (task_regex task) (task_timeout task) env (st_queues st)).1
            = append_result (st_queues st) r) as Hq.
    { destruct (fetch_page_data _ _ _ _ _ _) as [[rq eq] d].
      simpl in *. unfold append_result. congruence. }
    intros []; simpl; split; try apply (Hb ResultStream);
      try apply (Hb ErrorStream).
    + rewrite Hrq. apply Forall_app. split; [apply (Hb ResultStream)|].
      constructor; [|constructor].
      apply (success_binds _ _ _ _ _ _ _ _ result_table_plain Hq).
    + rewrite Heq. apply (Hb ErrorStream).
  - assert ((fetch_page_data (task_session task) (task_url task)
               (task_regex task) (task_timeout task) env (st_queues st)).1
            = append_error (st_queues st) r) as Hq.
    { destruct (fetch_page_data _ _ _ _ _ _) as [[rq eq] d].
      simpl in *. unfold append_error. congruence. }
    intros []; simpl; split; try apply (Hb ResultStream);
      try apply (Hb ErrorStream).
    + rewrite Hrq. apply (Hb ResultStream).
    + rewrite Heq. apply Forall_app. split; [apply (Hb ErrorStream)|].
      constructor; [|constructor].
      apply (failure_binds _ _ _ _ _ _ _ _ error_table_plain Hq).
Qed.

Lemma halted_streams (st : state) (s : stream) :
  halted st
  = is_raised (get_dumper s st) || is_raised (get_dumper (other s) st).
Proof. unfold halted. destruct s; simpl; [reflexivity | apply orb_comm]. Qed.

Lemma sound_streams (st : state) (s : stream) :
  halted st = false ->
  binds_all s (get_queue s (st_queues st)) ->
  binds_all s (held (get_dumper s st)) ->
  binds_all (other s) (get_queue (other s) (st_queues st)) ->
  binds_all (other s) (held (get_dumper (other s) st)) ->
  sound st.
Proof.
  intros Hh H1 H2 H3 H4. split; [exact Hh|].
  intros s'. destruct s, s'; auto.
Qed.

Lemma accepted_write (srv : server) (s : stream)
    (items : list (gmap string pyval)) (rows_before : database) :
  accepting srv -> binds_all s items ->
  write_to_db srv items (sql_of pl s) rows_before
  = (rows_before ++ rows (sql_of pl s) items, ret tt).
Proof.
  intros [Ha Hacc] Hb. unfold write_to_db. rewrite Ha.
  apply execute_each_accepted.
  eapply Forall_impl; [exact Hb|]. intros values Hv. split; [exact Hv|].
  apply Hacc.
Qed.

Lemma step_sound (st st' : state) (ev : event) :
  sound st ->
  match ev with WriteDone _ srv => accepting srv | _ => True end ->
  step pl st ev = Some st' ->
  sound st'.
Proof.
  intros Hsound Hev Hs. destruct ev as [i env|s|s srv]; simpl.
  - eapply step_fetch_sound; eauto.
  - destruct Hsound as [Hh Hb].
    apply step_wake in Hs as (Hsl & Hd & Hq & Hheld & Hnr & Hoq & Hod).
    apply (sound_streams st' s).
    + rewrite (halted_streams st' s), Hnr, Hod. simpl.
      rewrite (halted_streams st s), Hsl in Hh. exact Hh.
    + rewrite Hq. constructor.
    + rewrite Hheld. apply Hb.
    + rewrite Hoq. apply Hb.
    + rewrite Hod. apply Hb.
  - destruct Hsound as [Hh Hb].
    apply step_write in Hs as (Hw & Hq & Hd & Hheld & Hnr & Hod).
    rewrite (accepted_write srv s _ _ Hev (proj2 (Hb s))) in Hnr.
    simpl in Hnr.
    apply (sound_streams st' s).
    + rewrite (halted_streams st' s), (proj2 Hnr eq_refl), Hod. simpl.
      rewrite (halted_streams st s), Hw in Hh. exact Hh.
    + rewrite Hq. apply Hb.
    + rewrite Hheld. constructor.
    + rewrite Hq. apply Hb.
    + rewrite Hod. apply Hb.
Qed.

Lemma run_kept_all (evs : list event) (s : stream) : forall st st',
  sound st -> writes_accepted evs -> run pl st evs = Some st' ->
  sound st' /\ kept pl s st' = kept pl s st ++ fetched pl s evs.
Proof.
  induction evs as [|ev evs IH]; intros st st' Hsound Hacc Hr; simpl in Hr.
  - injection Hr as <-. unfold fetched. simpl. rewrite app_nil_r. auto.
  - inversion Hacc as [|? ? Hev Hrest]; subst.
    destruct (step pl st ev) as [st1|] eqn:Es; simpl in Hr; [|discriminate].
    destruct (IH _ _ (step_sound _ _ _ Hsound Hev Es) Hrest Hr) as [Hs' Hk].
    split; [exact Hs'|].
    rewrite Hk, (step_kept_all pl poll_statements_differ _ _ _ s Hsound Hev Es).
    rewrite (fetched_cons pl s ev evs), app_assoc. reflexivity.
Qed.

(** Whatever the servers do and however the tasks take turns, after each
    step of a run the records of a stream that are in the database, in the
    hands of its flusher and on its queue, taken in this order, are among
    the records the fetches put on that stream and in the order of the
    fetches: none is there twice, none has overtaken another. *)
Theorem no_record_twice (evs : list event) (st : state) (s : stream) :
  run pl init evs = Some st ->
  written pl s (st_db st) ++ held (get_dumper s st)
  ++ get_queue s (st_queues st)
  `sublist_of` fetched pl s evs.
Proof.
  intros Hr.
  pose proof (run_kept pl poll_statements_differ evs s _ _ Hr) as Hk.
  unfold kept in Hk. destruct s; exact Hk.
Qed.

(** As long as every write ends on a server that takes every statement,
    nothing is lost or reordered either: after each step of a run the
    records of a stream in the database, in the hands of its flusher and
    on its queue, taken in this order, are exactly the records the fetches
    put on that stream, in the order of the fetches, and no flusher has
    raised. *)
Theorem no_record_lost (evs : list event) (st : state) (s : stream) :
  writes_accepted evs ->
  run pl init evs = Some st ->
  written pl s (st_db st) ++ held (get_dumper s st)
  ++ get_queue s (st_queues st)
  = fetched pl s evs /\
  halted st = false.
Proof.
  intros Hacc Hr.
  destruct (run_kept_all evs s init st sound_init Hacc Hr) as [[Hh _] Hk].
  split; [|exact Hh]. unfold kept in Hk. destruct s; exact Hk.
Qed.

End Healthy.

Lemma no_record_twice_witness :
  let pl := AsyncPoller.poll Scenario.test_db
              [Scenario.correct_url; Scenario.wrong_url] 3 3 in
  let env := Scenario.at_noon Scenario.internet in
  let evs := [AsyncPoller.Fetch 0 env; AsyncPoller.Fetch 0 env;
              AsyncPoller.Wake AsyncPoller.ResultStream;
              AsyncPoller.Fetch 0 env;
              AsyncPoller.WriteDone AsyncPoller.ResultStream
                Scenario.refusing] in
  match AsyncPoller.run pl AsyncPoller.init evs with
  | Some st =>
    AsyncPoller.written pl AsyncPoller.ResultStream (AsyncPoller.st_db st)
    ++ AsyncPoller.held
         (AsyncPoller.get_dumper AsyncPoller.ResultStream st)
    ++ AsyncPoller.get_queue AsyncPoller.ResultStream
         (AsyncPoller.st_queues st)
    `sublist_of` AsyncPoller.fetched pl AsyncPoller.ResultStream evs
  | None => False
  end.
Proof.
  cbv zeta.
  destruct (AsyncPoller.run _ _ _) as [st|] eqn:Er.
  - exact (no_record_twice Scenario.test_db
             [Scenario.correct_url; Scenario.wrong_url] 3 3
             eq_refl eq_refl _ st AsyncPoller.ResultStream Er).
  - vm_compute in Er. discriminate.
Defined.

Lemma no_record_lost_witness :
  let pl := AsyncPoller.poll Scenario.test_db
              [Scenario.correct_url; Scenario.wrong_url] 3 3 in
  let env := Scenario.at_noon Scenario.internet in
  let evs := [AsyncPoller.Fetch 0 env; AsyncPoller.Fetch 1 env;
              AsyncPoller.Wake AsyncPoller.ResultStream;
              AsyncPoller.Fetch 0 env;
              AsyncPoller.WriteDone AsyncPoller.ResultStream Scenario.healthy]
  in
  match AsyncPoller.run pl AsyncPoller.init evs with
  | Some st =>
    AsyncPoller.written pl AsyncPoller.ResultStream (AsyncPoller.st_db st)
    ++ AsyncPoller.held
         (AsyncPoller.get_dumper AsyncPoller.ResultStream st)
    ++ AsyncPoller.get_queue AsyncPoller.ResultStream
         (AsyncPoller.st_queues st)
    = AsyncPoller.fetched pl AsyncPoller.ResultStream evs
  | None => False
  end.
Proof.
  cbv zeta.
  destruct (AsyncPoller.run _ _ _) as [st|] eqn:Er.
  - refine (proj1 (no_record_lost Scenario.test_db
                     [Scenario.correct_url; Scenario.wrong_url] 3 3
                     eq_refl eq_refl _ st AsyncPoller.ResultStream _ Er)).
    repeat constructor.
  - vm_compute in Er. discriminate.
Defined.

(** ** A flusher among the other tasks *)

Section Interleaving.

Import Aiohttp DBHelper AsyncPoller.

Variable pl : pipeline.

Lemma run_app (evs1 evs2 : list event) : forall st,
  run pl st (evs1 ++ evs2) = (st1 ← run pl st evs1; run pl st1 evs2).
Proof.
  induction evs1 as [|ev evs1 IH]; intros st; simpl; [reflexivity|].
  destruct (step pl st ev) as [st1|]; simpl; auto.
Qed.

Lemma get_dumper_eq (s : stream) (st st' : state) :
  st_result_dumper st' = st_result_dumper st ->
  st_error_dumper st' = st_error_dumper st ->
  get_dumper s st' = get_dumper s st.
Proof. destruct s; simpl; auto. Qed.

(** The write of a flush cycle is given the batch taken when the flusher
    woke, however many fetches come in between: these only queue up behind
    the emptied queue, and the database after the write is what
    [write_to_db] makes of the rows before the wake and that batch. *)
Theorem write_gets_batch_taken_at_wake (st st' : state) (s : stream)
    (between : list event) (srv : server) :
  forallb is_fetch between = true ->
  run pl st (Wake s :: between ++ [WriteDone s srv]) = Some st' ->
  st_db st'
  = (write_to_db srv (get_queue s (st_queues st)) (sql_of pl s) (st_db st)).1 /\
  (queued (st_queues st') + length (get_queue s (st_queues st)))%nat
  = (queued (st_queues st) + length between)%nat.
Proof.
  intros Hf Hr. simpl in Hr.
  destruct (step pl st (Wake s)) as [st1|] eqn:E1; simpl in Hr; [|discriminate].
  rewrite run_app in Hr.
  destruct (run pl st1 between) as [st2|] eqn:E2; simpl in Hr; [|discriminate].
  destruct (step pl st2 (WriteDone s srv)) as [st3|] eqn:E3; simpl in Hr;
    [|discriminate].
  injection Hr as <-.
  pose proof E1 as E1'.
  apply step_wake in E1 as (_ & Hd1 & Hq1 & Hh1 & _ & Hoq1 & _).
  apply run_fetches_queued in E2 as (Hq2 & Hr2 & He2 & Hd2); [|exact Hf].
  apply step_write in E3 as (_ & Hq3 & Hd3 & _).
  rewrite (get_dumper_eq s st1 st2 Hr2 He2), Hh1, Hd2, Hd1 in Hd3.
  split; [exact Hd3|].
  rewrite Hq3, Hq2.
  assert ((queued (st_queues st1) + length (get_queue s (st_queues st)))%nat
          = queued (st_queues st)) as Hq.
  { unfold queued. destruct s; simpl in *; rewrite Hq1, Hoq1; simpl; lia. }
  lia.
Qed.

End Interleaving.

Lemma write_gets_batch_taken_at_wake_witness :
  let pl := AsyncPoller.poll Scenario.test_db
              [Scenario.correct_url; Scenario.wrong_url] 3 3 in
  let env := Scenario.at_noon Scenario.internet in
  let a := Scenario.item "https://a.example" in
  let st := {| AsyncPoller.st_queues :=
                 {| AsyncPoller.result_queue := [];
                    AsyncPoller.error_queue := [a] |};
               AsyncPoller.st_result_dumper := AsyncPoller.Sleeping;
               AsyncPoller.st_error_dumper := AsyncPoller.Sleeping;
               AsyncPoller.st_db := [] |} in
  match AsyncPoller.run pl st
          (AsyncPoller.Wake AsyncPoller.ErrorStream
           :: [AsyncPoller.Fetch 1 env]
              ++ [AsyncPoller.WriteDone AsyncPoller.ErrorStream
                    Scenario.unreachable]) with
  | Some st' => AsyncPoller.st_db st' = []
                /\ AsyncPoller.queued (AsyncPoller.st_queues st') = 1%nat
  | None => False
  end.
Proof.
  cbv zeta.
  destruct (AsyncPoller.run _ _ _) as [st'|] eqn:Er.
  - pose proof (write_gets_batch_taken_at_wake _ _ _ AsyncPoller.ErrorStream
                  [AsyncPoller.Fetch 1 (Scenario.at_noon Scenario.internet)]
                  _ eq_refl Er) as [Hd Hq].
    split; [exact Hd|]. simpl in Hq. lia.
  - vm_compute in Er. discriminate.
Defined.
